(** * Orchestra core: consensus engine, debate coordinator and registry

    A shallow embedding of [packages/core/src/consensus.ts] (the
    [ConsensusEngine] and [Orchestra] classes), of the provider interface
    in [types.ts]/[provider.ts] and of the [ProviderRegistry].

    Modelling conventions.
    - JS strings are [String.string]; a character is read as one UTF-16
      code unit of the Latin-1 range (0..255), which is where
      [toLowerCase] and the regular-expression class [\s] are modelled.
    - JS numbers are exact rationals [Q].  The quantities compared here
      are ratios of small natural numbers; [0.6] and [3/5] denote the same
      double, so [x > 0.6] is [3#5 < x] on these ratios.
    - A promise settles to [Resolved v] or [Rejected e]; a thrown value is
      a JS [Error] object, modelled by its [name] and [message].
    - [Promise.all] rejects with the reason of the first input promise to
      reject in time; the timing is an explicit argument (the settle order
      of the input promises).
    - Object identity of a [Response] is its field [oid]; [includes]
      compares whole records (which, for well-formed inputs, is the same
      as comparing identities). *)

From Stdlib Require Import String Ascii.
From Stdlib Require Import List Arith Lia Bool.
From Stdlib Require Import ZArith QArith Qminmax Qround ListSet Permutation Sorting.
Import ListNotations.
Open Scope string_scope.
Open Scope list_scope.

(** ** Errors and promise outcomes *)

Record js_error := mkError { err_name : string; err_message : string }.

(** [new Error(msg)] *)
Definition Error (msg : string) : js_error := mkError "Error" msg.
Definition TypeError (msg : string) : js_error := mkError "TypeError" msg.

Inductive outcome (A : Type) : Type :=
| Resolved (v : A)
| Rejected (e : js_error).
Arguments Resolved {A} v.
Arguments Rejected {A} e.

Definition bind {A B} (m : outcome A) (k : A -> outcome B) : outcome B :=
  match m with Resolved v => k v | Rejected e => Rejected e end.

(** Settling the input promises one after the other in list order. *)
Fixpoint sequence {A} (l : list (outcome A)) : outcome (list A) :=
  match l with
  | [] => Resolved []
  | Resolved v :: l' => bind (sequence l') (fun vs => Resolved (v :: vs))
  | Rejected e :: _ => Rejected e
  end.

Fixpoint first_rejection {A} (l : list (option (outcome A))) : option js_error :=
  match l with
  | [] => None
  | Some (Rejected e) :: _ => Some e
  | _ :: l' => first_rejection l'
  end.

(** [Promise.all(ps)]: [order] lists the indices of [ps] in the order in
    which they settle.  The first rejection in that order wins; otherwise
    the values are returned in input order (not arrival order). *)
Definition promise_all {A} (order : list nat) (ps : list (outcome A))
  : outcome (list A) :=
  match first_rejection (map (fun i => nth_error ps i) order) with
  | Some e => Rejected e
  | None => sequence ps
  end.

(** ** Strings: [toLowerCase] and [split(/\s+/)] *)

Definition char_code (c : ascii) : nat := nat_of_ascii c.

(** Latin-1 upper-case letters: A-Z, U+00C0..U+00D6, U+00D8..U+00DE. *)
Definition is_upper (c : ascii) : bool :=
  let n := char_code c in
  (Nat.leb 65 n && Nat.leb n 90) || (Nat.leb 192 n && Nat.leb n 214)
  || (Nat.leb 216 n && Nat.leb n 222).

Definition to_lower_char (c : ascii) : ascii :=
  if is_upper c then ascii_of_nat (char_code c + 32)%nat else c.

Fixpoint toLowerCase (s : string) : string :=
  match s with
  | EmptyString => EmptyString
  | String c s' => String (to_lower_char c) (toLowerCase s')
  end.

(** [\s] on the Latin-1 range: TAB, LF, VT, FF, CR, SPACE, NBSP. *)
Definition is_ws (c : ascii) : bool :=
  let n := char_code c in
  (Nat.leb 9 n && Nat.leb n 13) || Nat.eqb n 32 || Nat.eqb n 160.

(** [s.split(/\s+/)]: the pieces between maximal runs of white space.
    [cur] is the current piece; [prev_ws] tells whether the
    previous character was white space.  The result is never empty:
    [""] splits to [[""]] and leading or trailing white space yields an
    empty piece. *)
Fixpoint split_go (cur : string) (prev_ws : bool) (s : string) : list string :=
  match s with
  | EmptyString => [cur]
  | String c s' =>
      if is_ws c then
        if prev_ws then split_go cur true s'
        else cur :: split_go EmptyString true s'
      else split_go (append cur (String c EmptyString)) false s'
  end.

Definition split_ws (s : string) : list string := split_go EmptyString false s.

(** ** JS [Set]s of strings *)

Definition mem (x : string) (l : list string) : bool :=
  existsb (fun y => String.eqb x y) l.

(** [new Set(xs)]: insertion order, first occurrence kept. *)
Definition set_of (xs : list string) : list string :=
  fold_left (fun acc x => if mem x acc then acc else acc ++ [x]) xs [].

(** [new Set([...A].filter(x => B.has(x)))] *)
Definition set_intersection_js (a b : list string) : list string :=
  set_of (filter (fun x => mem x b) a).

(** [new Set([...A, ...B])] *)
Definition set_union_js (a b : list string) : list string := set_of (a ++ b).

Definition ratio (num den : nat) : Q :=
  inject_Z (Z.of_nat num) / inject_Z (Z.of_nat den).

(** ** Responses *)

Record Response := mkResponse {
  oid : nat;                (** object identity *)
  content : string;
  provider : string;
  cost : option Q
}.

Definition Q_eq_dec (a b : Q) : {a = b} + {a <> b}.
Proof. decide equality; [apply Pos.eq_dec | apply Z.eq_dec]. Defined.

(** Comparison of whole response records. *)
Definition response_eq_dec (a b : Response) : {a = b} + {a <> b}.
Proof.
  decide equality;
    first [ apply string_dec | apply Nat.eq_dec
          | decide equality; apply Q_eq_dec ].
Defined.

(** [Array.prototype.includes] on a list of responses. *)
Definition includes (g : list Response) (r : Response) : bool :=
  existsb (fun x => if response_eq_dec x r then true else false) g.

(** ** [ConsensusEngine.areSimilar] *)

Definition tokens (s : string) : list string := set_of (split_ws (toLowerCase s)).

Definition jaccard_code (wordsA wordsB : list string) : Q :=
  let inter := set_intersection_js wordsA wordsB in
  let uni := set_union_js wordsA wordsB in
  if Nat.ltb 0 (length uni) then ratio (length inter) (length uni) else 0.

Definition areSimilar (a b : Response) : bool :=
  let similarity := jaccard_code (tokens (content a)) (tokens (content b)) in
  negb (Qle_bool similarity (3 # 5)).

(** ** [ConsensusEngine.groupSimilarResponses]

    The two loops run over indices; [used] is the [Set<number>] of
    indices already placed in a group.  [scan seed js used] is the inner
    loop [for (j = i + 1; ...)] over the later indices [js]; [outer] is
    the outer loop [for (i = 0; ...)].  The similarity test is a
    parameter, [areSimilar(responses[i], responses[j])] in the code. *)

Definition memn (x : nat) (l : list nat) : bool := existsb (Nat.eqb x) l.

Section Grouping.
Variable sim : nat -> nat -> bool.

Fixpoint scan (seed : nat) (js : list nat) (used : list nat)
    : list nat * list nat :=
    match js with
    | [] => ([], used)
    | j :: js' =>
        if memn j used then scan seed js' used
        else if sim seed j then
          let (g, u) := scan seed js' (j :: used) in (j :: g, u)
        else scan seed js' used
    end.

Fixpoint outer (is : list nat) (used : list nat) : list (list nat) :=
    match is with
    | [] => []
    | i :: is' =>
        if memn i used then outer is' used
        else
          let (g, u) := scan i is' (i :: used) in
          (i :: g) :: outer is' u
    end.
End Grouping.

Definition simIdx (rs : list Response) (i j : nat) : bool :=
  match nth_error rs i, nth_error rs j with
  | Some a, Some b => areSimilar a b
  | _, _ => false
  end.

Definition groupIndices (rs : list Response) : list (list nat) :=
  outer (simIdx rs) (seq 0 (length rs)) [].

(** [responses[i]] for each index of a group. *)
Definition pick (rs : list Response) (g : list nat) : list Response :=
  flat_map (fun i => match nth_error rs i with Some r => [r] | None => [] end) g.

Definition groupSimilarResponses (rs : list Response) : list (list Response) :=
  map (pick rs) (groupIndices rs).

(** ** [ConsensusEngine.calculateConsensus] *)

(** [groups.reduce((max, group) => group.length > max.length ? group : max)]
    (no initial value: an empty array throws). *)
Definition largestGroup {A} (groups : list (list A)) : outcome (list A) :=
  match groups with
  | [] => Rejected (TypeError "Reduce of empty array with no initial value")
  | g :: gs =>
      Resolved (fold_left (fun max group =>
                  if Nat.ltb (length max) (length group) then group else max)
                  gs g)
  end.

(** [calculateConfidence]; the boost factor [1.2] is [6#5]. *)
Definition calculateConfidence (majorityGroup allResponses : list Response) : Q :=
  let agreementRatio := ratio (length majorityGroup) (length allResponses) in
  let unanimity := Nat.eqb (length majorityGroup) (length allResponses) in
  if unanimity then Qmin 1 (agreementRatio * (6 # 5)) else agreementRatio.

(** [synthesizeResponse]: [group[0].content]. *)
Definition synthesizeResponse (group : list Response) : outcome string :=
  match group with
  | [] => Rejected (TypeError "Cannot read properties of undefined (reading 'content')")
  | r :: _ => Resolved (content r)
  end.

(** The part of [ConsensusResult] computed by [calculateConsensus]
    (the [reasoning] text is [consensus_reasoning], below). *)
Record ConsensusCore := mkCore {
  core_result : string;
  core_confidence : Q;
  core_agreement : Q;
  core_dissenting : option (list Response)
}.

Definition calculateConsensus (responses : list Response) : outcome ConsensusCore :=
  let groups := groupSimilarResponses responses in
  bind (largestGroup groups) (fun largest =>
  let agreement := ratio (length largest) (length responses) in
  let confidence := calculateConfidence largest responses in
  let dissenting := filter (fun r => negb (includes largest r)) responses in
  bind (synthesizeResponse largest) (fun res =>
  Resolved {| core_result := res;
              core_confidence := confidence;
              core_agreement := agreement;
              core_dissenting :=
                match dissenting with [] => None | _ => Some dissenting end |})).

(** ** [ConsensusEngine.generateReasoning] *)

(** [Math.round] on a finite number: the nearest integer, a half
    rounded towards [+Infinity]. *)
Definition Math_round (x : Q) : Z := Qfloor (x + (1 # 2)).

(** The decimal digits of [n] in front of [acc]; [fuel] bounds the number
    of digits. *)
Fixpoint digits_go (fuel : nat) (n : N) (acc : string) : string :=
  match fuel with
  | O => acc
  | S f =>
      let acc' := String (ascii_of_N (48 + N.modulo n 10)) acc in
      if N.ltb n 10 then acc' else digits_go f (N.div n 10) acc'
  end.

Definition N_toString (n : N) : string := digits_go (S (N.size_nat n)) n EmptyString.

(** Interpolation [`${x}`] of an integer-valued number (below [1e21]). *)
Definition Z_toString (z : Z) : string :=
  if Z.ltb z 0 then append "-" (N_toString (Z.to_N (Z.opp z)))
  else N_toString (Z.to_N z).

(** [generateReasoning(majority, dissenting)].  With both lists empty the
    division is [0 / 0 = NaN], which [Math.round] keeps and which prints
    as ["NaN"].  The percentage is computed exactly; JS computes it in
    doubles, which can round differently ([23/40*100] is
    [57.49999999999999] in JS, printing [57], where the exact [57.5]
    gives [58]). *)
Definition generateReasoning (majority dissenting : list Response) : string :=
  let total := (length majority + length dissenting)%nat in
  let agreementPercent :=
    if Nat.eqb total 0 then "NaN"
    else Z_toString (Math_round (ratio (length majority) total * inject_Z 100)) in
  let reasoning := append agreementPercent "% of models agreed on this response." in
  if Nat.ltb 0 (length dissenting) then
    append reasoning
      (append " " (append (Z_toString (Z.of_nat (length dissenting)))
                     " model(s) provided alternative perspectives."))
  else reasoning.

(** The [reasoning] field of [calculateConsensus]:
    [this.generateReasoning(largestGroup, dissenting)]. *)
Definition consensus_reasoning (responses : list Response) : outcome string :=
  let groups := groupSimilarResponses responses in
  bind (largestGroup groups) (fun largest =>
  let dissenting := filter (fun r => negb (includes largest r)) responses in
  Resolved (generateReasoning largest dissenting)).

(** ** Providers and the [ProviderRegistry] *)

Notation "a +++ b" := (String.append a b) (at level 60, right associativity).

Definition dquote : string := String (ascii_of_nat 34) EmptyString.
Definition nl : string := String (ascii_of_nat 10) EmptyString.

(** [IProvider]: [complete(prompt)] and the optional [healthCheck()].
    A probe is [None] when the provider has no [healthCheck]; otherwise
    the outcome of calling it ([Rejected] when it throws or rejects).
    The options argument of [complete] is not modelled. *)
Record IProvider := mkProvider {
  pname : string;
  complete : string -> outcome Response;
  healthProbe : option (outcome bool)
}.

Record ProviderConfig := mkProviderConfig {
  apiKey : string;
  model : option string
}.

(** [ProviderRegistry.createProvider]: the mock provider.  Every call
    returns a fresh object; its identity is not observed by any caller
    that compares by record, so [oid] is fixed. *)
Definition createProvider (name : string) (config : ProviderConfig) : IProvider :=
  {| pname := name;
     complete := fun prompt =>
       Resolved {| oid := 0;
                   content := "Response from " +++ name +++
                     ": This is a simulated response to " +++ dquote +++
                     prompt +++ dquote;
                   provider := name;
                   cost := Some (1 # 1000) |};
     healthProbe := Some (Resolved true) |}.

(** The [Map<string, IProvider>], in insertion order. *)
Definition Registry := list (string * IProvider).

Fixpoint reg_get (reg : Registry) (name : string) : option IProvider :=
  match reg with
  | [] => None
  | (k, p) :: reg' => if String.eqb k name then Some p else reg_get reg' name
  end.

(** [Map.prototype.set]: an existing key keeps its position. *)
Fixpoint reg_set (reg : Registry) (name : string) (p : IProvider) : Registry :=
  match reg with
  | [] => [(name, p)]
  | (k, q) :: reg' =>
      if String.eqb k name then (k, p) :: reg' else (k, q) :: reg_set reg' name p
  end.

Definition reg_delete (reg : Registry) (name : string) : Registry :=
  filter (fun kp => negb (String.eqb (fst kp) name)) reg.

Definition reg_list (reg : Registry) : list string := map fst reg.

Definition register (reg : Registry) (name : string) (config : ProviderConfig)
  : Registry :=
  reg_set reg name (createProvider name config).

(** ** [ConsensusEngine.buildConsensus] *)

Record ConsensusOptions := mkConsensusOptions {
  c_providers : option (list string)
}.

Record ConsensusResult := mkConsensusResult {
  result : string;
  c_confidence : Q;
  c_agreement : Q;
  providers : list string;
  dissenting : option (list Response);
  meta_rounds : nat;
  meta_totalCost : Q
}.

(** [getResponses]: one promise per name, joined by [Promise.all]. *)
Definition provider_call (reg : Registry) (prompt name : string) : outcome Response :=
  match reg_get reg name with
  | None => Rejected (Error ("Provider " +++ name +++ " not found"))
  | Some p => complete p prompt
  end.

Definition getResponses (reg : Registry) (prompt : string)
  (providerNames : list string) (order : list nat) : outcome (list Response) :=
  promise_all order (map (provider_call reg prompt) providerNames).

Definition resolveProviders (reg : Registry) (options : ConsensusOptions)
  : list string :=
  match c_providers options with Some ps => ps | None => reg_list reg end.

Definition noProvidersError : js_error :=
  Error "No providers available for consensus".

(** Numbers are rationals: [metadata.totalCost] is the exact sum of the
    costs, where JS adds doubles (nine costs of [0.001] sum to
    [0.009000000000000001]). *)
Definition buildConsensus (reg : Registry) (prompt : string)
  (options : ConsensusOptions) (order : list nat) : outcome ConsensusResult :=
  let providerNames := resolveProviders reg options in
  match providerNames with
  | [] => Rejected noProvidersError
  | _ =>
      bind (getResponses reg prompt providerNames order) (fun responses =>
      bind (calculateConsensus responses) (fun core =>
      Resolved {| result := core_result core;
                  c_confidence := core_confidence core;
                  c_agreement := core_agreement core;
                  providers := providerNames;
                  dissenting := core_dissenting core;
                  meta_rounds := 1;
                  meta_totalCost :=
                    fold_left (fun sum r =>
                      sum + match cost r with Some c => c | None => 0 end)
                      responses 0 |}))
  end.

(** ** [Orchestra] *)

Record OrchestraConfig := mkConfig {
  cfg_providers : list (string * ProviderConfig);   (** [Object.entries] *)
  defaultProvider : option string;
  consensusThreshold : option Q;
  maxDebateRounds : option Q
}.

Record Orchestra := mkOrchestra {
  config : OrchestraConfig;
  registry : Registry
}.

(** JS [||] with a string or number on the left: [""] and [0] are falsy. *)
Definition or_str (o : option string) (d : string) : string :=
  match o with Some s => if String.eqb s "" then d else s | None => d end.

Definition or_num (o : option Q) (d : Q) : Q :=
  match o with Some x => if Qeq_bool x 0 then d else x | None => d end.

Definition qlt (a b : Q) : bool := negb (Qle_bool b a).

(** The constructor followed by a completed [initialize()]: every
    configured provider registered in [Object.entries] order.  The
    constructor does not await [initialize()], so right after
    [new Orchestra(config)] only the first configured provider is
    registered; this is the state once [initialize()] has finished, with
    no [addProvider]/[removeProvider] call made before that. *)
Definition newOrchestra (config : OrchestraConfig) : Orchestra :=
  {| config := config;
     registry := fold_left (fun reg nc => register reg (fst nc) (snd nc))
                   (cfg_providers config) [] |}.

Definition addProvider (o : Orchestra) (name : string) (c : ProviderConfig)
  : Orchestra :=
  {| config := config o; registry := register (registry o) name c |}.

Definition removeProvider (o : Orchestra) (name : string) : Orchestra :=
  {| config := config o; registry := reg_delete (registry o) name |}.

Definition getProviders (o : Orchestra) : list string := reg_list (registry o).

(** [Orchestra.consensus]: delegation to the engine over the registry. *)
Definition consensus (o : Orchestra) (prompt : string)
  (options : ConsensusOptions) (order : list nat) : outcome ConsensusResult :=
  buildConsensus (registry o) prompt options order.

(** [Orchestra.query(prompt, {provider})]. *)
Definition query (o : Orchestra) (prompt : string) (provider_opt : option string)
  : outcome Response :=
  let providerName :=
    or_str provider_opt (or_str (defaultProvider (config o)) "openai") in
  match reg_get (registry o) providerName with
  | None => Rejected (Error ("Provider " +++ providerName +++ " not found"))
  | Some p =>
      bind (complete p prompt) (fun response =>
      Resolved {| oid := oid response; content := content response;
                  provider := providerName; cost := cost response |})
  end.

(** ** The debate coordinator *)

Record DebateRound := mkRound {
  round : nat;
  arguments : list Response;
  round_agreement : Q
}.

Record DebateOptions := mkDebateOptions {
  d_providers : option (list string);
  d_maxRounds : option Q;
  d_threshold : option Q
}.

Record DebateResult := mkDebateResult {
  decision : string;
  rounds : list DebateRound;
  agreement : Q;
  participants : list string;
  confidence : Q
}.

(** [Orchestra.calculateSimilarity] (its arguments are already lower-cased). *)
Definition calculateSimilarity (a b : string) : Q :=
  jaccard_code (set_of (split_ws a)) (set_of (split_ws b)).

(** The two nested loops of [calculateAgreement], accumulating
    [(totalSimilarity, comparisons)]. *)
Definition agreement_loops (contents : list string) : Q * nat :=
  let n := length contents in
  fold_left (fun acc i =>
    fold_left (fun acc j =>
      (fst acc + calculateSimilarity (nth i contents "") (nth j contents ""),
       S (snd acc)))
      (seq (S i) (n - S i)) acc)
    (seq 0 n) (0, 0%nat).

Definition calculateAgreement (responses : list Response) : Q :=
  if Nat.leb (length responses) 1 then 1
  else
    let contents := map (fun r => toLowerCase (content r)) responses in
    let (totalSimilarity, comparisons) := agreement_loops contents in
    if Nat.ltb 0 comparisons then totalSimilarity / inject_Z (Z.of_nat comparisons)
    else 0.

Fixpoint last_opt {A} (l : list A) : option A :=
  match l with [] => None | [x] => Some x | _ :: l' => last_opt l' end.

Definition buildDebatePrompt (originalPrompt : string) (rs : list DebateRound)
  : outcome string :=
  match last_opt rs with
  | None => Rejected (TypeError "Cannot read properties of undefined (reading 'arguments')")
  | Some lastRound =>
      let perspectives :=
        String.concat nl (map (fun arg =>
          provider arg +++ ": " +++ substring 0 200 (content arg) +++ "...")
          (arguments lastRound)) in
      Resolved (nl +++ "Original question: " +++ originalPrompt +++ nl +++ nl +++
        "Previous perspectives:" +++ nl +++ perspectives +++ nl +++ nl +++
        "Please reconsider your response taking into account these other viewpoints."
        +++ nl +++ "Aim for consensus while maintaining your analytical rigor.")
  end.

Definition synthesizeDecision (rs : list DebateRound) : outcome string :=
  match last_opt rs with
  | None => Rejected (TypeError "Cannot read properties of undefined (reading 'arguments')")
  | Some lastRound =>
      match arguments lastRound with
      | [] => Rejected (TypeError "Cannot read properties of undefined (reading 'content')")
      | bestResponse :: _ => Resolved (content bestResponse)
      end
  end.

Section DebateLoop.
Variable o : Orchestra.
Variable participants_list : list string.
Variables threshold maxRounds : Q.
  (** Settle order of the fan-out of each round. *)
Variable order : nat -> list nat.

  (** The [while (agreement < threshold && round < maxRounds)] loop.  The
      state is [(prompt, rounds, agreement, round)].  [fuel] bounds the
      iterations; started at [ceil(maxRounds)] it never runs out while
      the loop condition holds (lemma [debate_loop_fuel_exhausted]). *)
Fixpoint debate_loop (fuel : nat) (prompt : string) (rs : list DebateRound)
    (agr : Q) (rnd : nat) : outcome (list DebateRound * Q) :=
    match fuel with
    | O => Resolved (rs, agr)
    | S fuel' =>
        if qlt agr threshold && qlt (inject_Z (Z.of_nat rnd)) maxRounds then
          let rnd' := S rnd in
          bind (promise_all (order rnd')
                  (map (fun p => query o prompt (Some p)) participants_list))
          (fun responses =>
          let agr' := calculateAgreement responses in
          let rs' := rs ++ [mkRound rnd' responses agr'] in
          if qlt agr' threshold && qlt (inject_Z (Z.of_nat rnd')) maxRounds then
            bind (buildDebatePrompt prompt rs') (fun prompt' =>
              debate_loop fuel' prompt' rs' agr' rnd')
          else debate_loop fuel' prompt rs' agr' rnd')
        else Resolved (rs, agr)
    end.
End DebateLoop.

(** Numbers are rationals, so the round budget is finite: [Infinity] is
    not modelled (with it and a threshold no agreement reaches, the JS
    loop never ends). *)
Definition resolveMaxRounds (o : Orchestra) (options : DebateOptions) : Q :=
  or_num (d_maxRounds options) (or_num (maxDebateRounds (config o)) 3).

Definition resolveThreshold (o : Orchestra) (options : DebateOptions) : Q :=
  or_num (d_threshold options) (or_num (consensusThreshold (config o)) (7 # 10)).

Definition resolveParticipants (o : Orchestra) (options : DebateOptions)
  : list string :=
  match d_providers options with
  | Some ps => ps
  | None => map fst (cfg_providers (config o))
  end.

Definition debate (o : Orchestra) (prompt : string) (options : DebateOptions)
  (order : nat -> list nat) : outcome DebateResult :=
  let maxRounds := resolveMaxRounds o options in
  let threshold := resolveThreshold o options in
  let ps := resolveParticipants o options in
  bind (debate_loop o ps threshold maxRounds order
          (Z.to_nat (Qceiling maxRounds)) prompt [] 0 0) (fun st =>
  let (rs, agr) := st in
  bind (synthesizeDecision rs) (fun d =>
  Resolved {| decision := d; rounds := rs; agreement := agr;
              participants := ps; confidence := agr |})).

(** ** [Orchestra.healthCheck] *)

(** Assignment [obj[key] = v] on a plain object [{}] holding booleans,
    as the list of its own properties.  The key ["__proto__"] hits the
    inherited accessor of [Object.prototype], whose setter ignores a
    non-object value: no own property is created.  The list is in
    insertion order, while JS enumerates array-index keys (["0"], ["1"],
    ...) first in numeric order: lookups follow this list, the order of
    [Object.keys] does not. *)
Fixpoint obj_put (obj : list (string * bool)) (key : string) (v : bool)
  : list (string * bool) :=
  match obj with
  | [] => [(key, v)]
  | (k, w) :: obj' =>
      if String.eqb k key then (k, v) :: obj' else (k, w) :: obj_put obj' key v
  end.

Definition obj_set (obj : list (string * bool)) (key : string) (v : bool)
  : list (string * bool) :=
  if String.eqb key "__proto__" then obj else obj_put obj key v.

Fixpoint obj_get (obj : list (string * bool)) (key : string) : option bool :=
  match obj with
  | [] => None
  | (k, v) :: obj' => if String.eqb k key then Some v else obj_get obj' key
  end.

Definition probe_result (p : option IProvider) : bool :=
  match p with
  | Some prov =>
      match healthProbe prov with
      | Some (Resolved b) => b
      | Some (Rejected _) => false      (** caught *)
      | None => true
      end
  | None => true
  end.

Definition healthCheck (o : Orchestra) : list (string * bool) :=
  fold_left (fun health name =>
      obj_set health name (probe_result (reg_get (registry o) name)))
    (reg_list (registry o)) [].

(** ** Reference definitions following the spec's words

    The spec describes similarity as the Jaccard ratio of the two token
    sets.  [jaccard_spec] computes it with the Standard Library's [ListSet]
    operations, independently of the code's JS [Set]s. *)

Definition token_set_spec (s : string) : list string :=
  nodup string_dec (split_ws (toLowerCase s)).

Definition jaccard_spec (A B : list string) : Q :=
  let u := ListSet.set_union string_dec A B in
  if Nat.eqb (length u) 0 then 0
  else ratio (length (ListSet.set_inter string_dec A B)) (length u).

(** All unordered pairs [{i, j}] of positions, as [(i, j)] with [i < j]. *)
Definition pairs_spec (n : nat) : list (nat * nat) :=
  filter (fun p => Nat.ltb (fst p) (snd p)) (list_prod (seq 0 n) (seq 0 n)).

Definition sumQ (l : list Q) : Q := fold_right Qplus 0 l.

(** Average pairwise Jaccard similarity of the token sets of [contents]
    over the [n(n-1)/2] unordered pairs; [1] for at most one content. *)
Definition avgPairwiseJaccard (contents : list string) : Q :=
  let n := length contents in
  if Nat.leb n 1 then 1
  else
    sumQ (map (fun p => jaccard_spec (token_set_spec (nth (fst p) contents ""))
                                     (token_set_spec (nth (snd p) contents "")))
              (pairs_spec n))
    / (inject_Z (Z.of_nat n) * inject_Z (Z.of_nat (n - 1)) / 2).

(** The rounds produced by [while (agreement < t && round < m)] started
    from agreement [agr] at round [rnd], ending with agreement [fin]. *)
Inductive loop_trace (t m : Q) : Q -> nat -> list DebateRound -> Q -> Prop :=
| trace_stop : forall agr rnd,
    ~ (agr < t /\ inject_Z (Z.of_nat rnd) < m) ->
    loop_trace t m agr rnd [] agr
| trace_step : forall agr rnd r rest fin,
    agr < t -> inject_Z (Z.of_nat rnd) < m ->
    round r = S rnd ->
    round_agreement r = calculateAgreement (arguments r) ->
    loop_trace t m (round_agreement r) (S rnd) rest fin ->
    loop_trace t m agr rnd (r :: rest) fin.

(** Reachable orchestras: construction then [addProvider]/[removeProvider]. *)
Inductive registry_op :=
| OpAdd (name : string) (c : ProviderConfig)
| OpRemove (name : string).

Definition apply_op (o : Orchestra) (op : registry_op) : Orchestra :=
  match op with
  | OpAdd n c => addProvider o n c
  | OpRemove n => removeProvider o n
  end.

Definition run_ops (o : Orchestra) (ops : list registry_op) : Orchestra :=
  fold_left apply_op ops o.

(** Every entry of a registry filled by [register] holds the mock
    provider created for its own name. *)
Definition mock_entries (reg : Registry) : Prop :=
  Forall (fun kp => exists c, snd kp = createProvider (fst kp) c) reg.

Definition no_options : DebateOptions := mkDebateOptions None None None.
Definition default_consensus : ConsensusOptions := mkConsensusOptions None.

(** ** Concrete inputs *)

Definition resp_pg1 : Response := mkResponse 0 "Use Postgres" "openai" None.
Definition resp_pg2 : Response := mkResponse 1 "Use Postgres" "anthropic" None.
Definition resp_mongo : Response := mkResponse 2 "Use MongoDB" "google" None.
Definition resp_pg_caps : Response := mkResponse 3 "use  POSTGRES" "mistral" None.
Definition resp_empty1 : Response := mkResponse 0 "" "openai" None.
Definition resp_empty2 : Response := mkResponse 1 "" "anthropic" None.

Definition cfg_key : ProviderConfig := mkProviderConfig "key" None.

Definition cfg_two : OrchestraConfig :=
  mkConfig [("openai", cfg_key); ("anthropic", cfg_key)] None None None.

(** A provider whose [complete] rejects. *)
Definition failing_provider : IProvider :=
  {| pname := "google";
     complete := fun _ => Rejected (Error "rate limited");
     healthProbe := Some (Rejected (Error "probe failed")) |}.

(** A provider that always answers with the same response and has no
    health probe. *)
Definition const_provider (r : Response) : IProvider :=
  {| pname := provider r; complete := fun _ => Resolved r; healthProbe := None |}.

Definition reg_pg : Registry :=
  [("openai", const_provider resp_pg1); ("anthropic", const_provider resp_pg2);
   ("google", const_provider resp_mongo)].

(** The consensus over [reg_pg]: two votes for Postgres, one for MongoDB. *)
Definition consensus_pg : ConsensusResult :=
  {| result := "Use Postgres";
     c_confidence := ratio 2 3;
     c_agreement := ratio 2 3;
     providers := ["openai"; "anthropic"; "google"];
     dissenting := Some [resp_mongo];
     meta_rounds := 1;
     meta_totalCost := 0 |}.

(** Three providers, the third of which rejects. *)
Definition reg_fail : Registry :=
  [("openai", const_provider resp_pg1); ("anthropic", const_provider resp_pg2);
   ("google", failing_provider)].

(** A debate between the two mock providers of [cfg_two]. *)
Definition orchestra_two : Orchestra := newOrchestra cfg_two.

Definition debate_two : outcome DebateResult :=
  debate orchestra_two "Which database?" no_options (fun _ => [0; 1]%nat).

Definition debate_two_result : DebateResult :=
  match debate_two with
  | Resolved r => r
  | Rejected _ => mkDebateResult "" [] 0 [] 0
  end.

(** * Proofs *)

(** ** Membership and JS sets *)

Lemma mem_In : forall x l, mem x l = true <-> In x l.
Proof.
  intros x l; unfold mem; rewrite existsb_exists; split.
  - intros [y [Hy Heq]]; apply String.eqb_eq in Heq; subst; exact Hy.
  - intros H; exists x; split; [exact H | apply String.eqb_refl].
Qed.

Lemma mem_false : forall x l, mem x l = false <-> ~ In x l.
Proof.
  intros x l; rewrite <- mem_In; destruct (mem x l); split; congruence.
Qed.

Lemma memn_In : forall x l, memn x l = true <-> In x l.
Proof.
  intros x l; unfold memn; rewrite existsb_exists; split.
  - intros [y [Hy Heq]]; apply Nat.eqb_eq in Heq; subst; exact Hy.
  - intros H; exists x; split; [exact H | apply Nat.eqb_refl].
Qed.

Lemma memn_false : forall x l, memn x l = false <-> ~ In x l.
Proof.
  intros x l; rewrite <- memn_In; destruct (memn x l); split; congruence.
Qed.

Lemma NoDup_snoc : forall (A : Type) (l : list A) x,
  NoDup l -> ~ In x l -> NoDup (l ++ [x]).
Proof.
  intros A l x Hl Hx.
  apply Permutation_NoDup with (x :: l).
  - apply Permutation_cons_append.
  - constructor; assumption.
Qed.

Lemma set_of_fold : forall xs acc,
  NoDup acc ->
  NoDup (fold_left (fun acc x => if mem x acc then acc else acc ++ [x]) xs acc)
  /\ (forall y, In y (fold_left (fun acc x => if mem x acc then acc else acc ++ [x]) xs acc)
                <-> In y acc \/ In y xs).
Proof.
  induction xs as [|x xs IH]; intros acc Hacc; simpl.
  - split; [exact Hacc | intros y; tauto].
  - destruct (mem x acc) eqn:Hm.
    + apply mem_In in Hm.
      destruct (IH acc Hacc) as [H1 H2]; split; [exact H1|].
      intros y; rewrite H2; split; [tauto|].
      intros [H|[H|H]]; [tauto| subst; tauto | tauto].
    + apply mem_false in Hm.
      destruct (IH (acc ++ [x]) (NoDup_snoc _ _ _ Hacc Hm)) as [H1 H2].
      split; [exact H1|].
      intros y; rewrite H2, in_app_iff; simpl; split.
      * intros [[H|[H|[]]]|H]; [tauto|subst; tauto|tauto].
      * intros [H|[H|H]]; [tauto|subst; tauto|tauto].
Qed.

Lemma set_of_NoDup : forall xs, NoDup (set_of xs).
Proof. intros xs; apply (set_of_fold xs []); constructor. Qed.

Lemma set_of_In : forall xs y, In y (set_of xs) <-> In y xs.
Proof.
  intros xs y; unfold set_of; rewrite (proj2 (set_of_fold xs [] (NoDup_nil _))).
  simpl; tauto.
Qed.

(** Two duplicate-free lists with the same members have the same size. *)
Lemma NoDup_same_length : forall (A : Type) (l l' : list A),
  NoDup l -> NoDup l' -> (forall x, In x l <-> In x l') -> length l = length l'.
Proof.
  intros A l l' H H' Hiff; apply Permutation_length, NoDup_Permutation; assumption.
Qed.

Lemma split_go_nonempty : forall s cur b, split_go cur b s <> [].
Proof.
  induction s as [|c s IH]; intros cur b; simpl; [discriminate|].
  destruct (is_ws c); [destruct b; [apply IH | discriminate] | apply IH].
Qed.

Lemma tokens_nonempty : forall s, tokens s <> [].
Proof.
  intros s; unfold tokens, split_ws.
  destruct (split_go "" false (toLowerCase s)) as [|w ws] eqn:E.
  - exfalso; exact (split_go_nonempty _ _ _ E).
  - intros H. assert (Hin : In w (set_of (w :: ws))) by (apply set_of_In; left; reflexivity).
    rewrite H in Hin; exact Hin.
Qed.

Lemma tokens_NoDup : forall s, NoDup (tokens s).
Proof. intros s; apply set_of_NoDup. Qed.

Lemma tokens_spec_In : forall s x, In x (tokens s) <-> In x (token_set_spec s).
Proof.
  intros s x; unfold tokens, token_set_spec; rewrite set_of_In, nodup_In; tauto.
Qed.

(** ** The similarity ratio *)

Lemma set_intersection_js_In : forall A B x,
  In x (set_intersection_js A B) <-> In x A /\ In x B.
Proof.
  intros A B x; unfold set_intersection_js; rewrite set_of_In, filter_In, mem_In; tauto.
Qed.

Lemma set_union_js_In : forall A B x,
  In x (set_union_js A B) <-> In x A \/ In x B.
Proof.
  intros A B x; unfold set_union_js; rewrite set_of_In, in_app_iff; tauto.
Qed.

(** The code's ratio depends only on who is in the intersection and
    who is in the union. *)
Lemma jaccard_code_members : forall A B A' B',
  (forall x, In x A /\ In x B <-> In x A' /\ In x B') ->
  (forall x, In x A \/ In x B <-> In x A' \/ In x B') ->
  jaccard_code A B = jaccard_code A' B'.
Proof.
  intros A B A' B' Hi Hu; unfold jaccard_code.
  rewrite (NoDup_same_length _ (set_intersection_js A B) (set_intersection_js A' B'));
    [| apply set_of_NoDup | apply set_of_NoDup
     | intros x; rewrite !set_intersection_js_In; apply Hi].
  rewrite (NoDup_same_length _ (set_union_js A B) (set_union_js A' B'));
    [reflexivity | apply set_of_NoDup | apply set_of_NoDup
    | intros x; rewrite !set_union_js_In; apply Hu].
Qed.

Lemma jaccard_code_sym : forall A B, jaccard_code A B = jaccard_code B A.
Proof. intros A B; apply jaccard_code_members; intros x; tauto. Qed.

(** The code's ratio is the Jaccard ratio computed with [ListSet]. *)
Lemma jaccard_code_spec : forall A B A' B',
  NoDup A' -> NoDup B' ->
  (forall x, In x A <-> In x A') -> (forall x, In x B <-> In x B') ->
  jaccard_code A B = jaccard_spec A' B'.
Proof.
  intros A B A' B' HA HB EA EB; unfold jaccard_code, jaccard_spec.
  rewrite (NoDup_same_length _ (set_intersection_js A B)
             (ListSet.set_inter string_dec A' B'));
    [| apply set_of_NoDup | apply set_inter_nodup; assumption
     | intros x; rewrite set_intersection_js_In, set_inter_iff, EA, EB; tauto].
  rewrite (NoDup_same_length _ (set_union_js A B)
             (ListSet.set_union string_dec A' B'));
    [| apply set_of_NoDup | apply set_union_nodup; assumption
     | intros x; rewrite set_union_js_In, set_union_iff, EA, EB; tauto].
  destruct (length (ListSet.set_union string_dec A' B')) as [|u]; reflexivity.
Qed.

Lemma similarity_spec : forall a b,
  jaccard_code (tokens (content a)) (tokens (content b))
  = jaccard_spec (token_set_spec (content a)) (token_set_spec (content b)).
Proof.
  intros a b; apply jaccard_code_spec; try apply NoDup_nodup;
    intros x; apply tokens_spec_In.
Qed.

Lemma areSimilar_iff : forall a b,
  areSimilar a b = true
  <-> 3 # 5 < jaccard_code (tokens (content a)) (tokens (content b)).
Proof.
  intros a b; unfold areSimilar.
  destruct (Qle_bool _ (3 # 5)) eqn:E; simpl.
  - apply Qle_bool_iff in E; split; [discriminate|]; intros H.
    exfalso; apply (Qlt_not_le _ _ H E).
  - split; [intros _ | reflexivity].
    apply Qnot_le_lt; intros H; apply Qle_bool_iff in H; congruence.
Qed.

Lemma ratio_diag : forall n, n <> 0%nat -> ratio n n == 1.
Proof.
  intros n Hn; unfold ratio, Qdiv; apply Qmult_inv_r.
  intros H; apply Hn; unfold Qeq in H; simpl in H; lia.
Qed.

(** A nonempty set has Jaccard ratio 1 with any set of the same members. *)
Lemma jaccard_code_same : forall A B,
  A <> [] -> (forall x, In x A <-> In x B) -> jaccard_code A B == 1.
Proof.
  intros A B HA E; unfold jaccard_code.
  assert (Hl : length (set_intersection_js A B) = length (set_union_js A B)).
  { apply NoDup_same_length; try apply set_of_NoDup.
    intros x; rewrite set_intersection_js_In, set_union_js_In, <- E; tauto. }
  destruct A as [|a A]; [congruence|].
  assert (Hu : In a (set_union_js (a :: A) B))
    by (apply set_union_js_In; left; left; reflexivity).
  destruct (set_union_js (a :: A) B) as [|u us] eqn:EU; [destruct Hu|].
  simpl Nat.ltb; cbv iota; rewrite Hl; apply ratio_diag; discriminate.
Qed.

(** Responses with the same token set: similarity 1, similar both ways
    and equally similar to every other response. *)
Lemma same_tokens_similar : forall a b,
  (forall x, In x (tokens (content a)) <-> In x (tokens (content b))) ->
  jaccard_code (tokens (content a)) (tokens (content b)) == 1
  /\ areSimilar a b = true /\ areSimilar b a = true
  /\ (forall c, areSimilar c a = areSimilar c b).
Proof.
  intros a b E.
  assert (H1 : jaccard_code (tokens (content a)) (tokens (content b)) == 1)
    by (apply jaccard_code_same; [apply tokens_nonempty | exact E]).
  assert (H2 : jaccard_code (tokens (content b)) (tokens (content a)) == 1)
    by (apply jaccard_code_same; [apply tokens_nonempty | intros x; rewrite E; tauto]).
  split; [exact H1|]. split; [|split].
  - apply areSimilar_iff; rewrite H1; reflexivity.
  - apply areSimilar_iff; rewrite H2; reflexivity.
  - intros c; unfold areSimilar; f_equal; f_equal.
    apply jaccard_code_members; intros x; rewrite E; tauto.
Qed.

(** ** The grouping loops *)

Lemma filter_split_perm : forall (A : Type) (f g : A -> bool) l,
  Permutation (filter (fun x => f x && g x) l ++ filter (fun x => f x && negb (g x)) l)
              (filter f l).
Proof.
  intros A f g l; induction l as [|a l IH]; simpl; [constructor|].
  destruct (f a), (g a); simpl; try exact IH.
  - constructor; exact IH.
  - rewrite <- Permutation_middle; constructor; exact IH.
Qed.

Section GroupingProofs.
Variable sim : nat -> nat -> bool.

Lemma scan_spec : forall seed js used,
    NoDup js ->
    fst (scan sim seed js used)
      = filter (fun j => negb (memn j used) && sim seed j) js
    /\ (forall x, In x (snd (scan sim seed js used))
                  <-> In x used \/ In x (fst (scan sim seed js used))).
  Proof.
    intros seed js; induction js as [|j js IH]; intros used Hnd; simpl.
    - split; [reflexivity | intros x; tauto].
    - inversion Hnd as [|? ? Hj Hnd']; subst.
      destruct (memn j used) eqn:Hm; simpl; [apply IH; exact Hnd'|].
      destruct (sim seed j) eqn:Hs; simpl; [|apply IH; exact Hnd'].
      destruct (IH (j :: used) Hnd') as [Hf Hu].
      destruct (scan sim seed js (j :: used)) as [g u] eqn:E; simpl in *.
      split.
      + f_equal; rewrite Hf; apply filter_ext_in; intros x Hx.
        simpl; replace (Nat.eqb x j) with false; [reflexivity|].
        symmetry; apply Nat.eqb_neq; intros ->; contradiction.
      + intros x; rewrite Hu; simpl; tauto.
  Qed.

  (** Every index not yet used lands in exactly one group. *)
Lemma outer_perm : forall is used,
    NoDup is ->
    Permutation (concat (outer sim is used)) (filter (fun x => negb (memn x used)) is).
  Proof.
    intros is; induction is as [|i is IH]; intros used Hnd; simpl; [constructor|].
    inversion Hnd as [|? ? Hi Hnd']; subst.
    destruct (memn i used) eqn:Hm; simpl; [apply IH; exact Hnd'|].
    destruct (scan_spec i is (i :: used) Hnd') as [Hf Hu].
    destruct (scan sim i is (i :: used)) as [g u] eqn:E; simpl in *.
    constructor.
    assert (Hg : g = filter (fun j => negb (memn j used) && sim i j) is).
    { rewrite Hf; apply filter_ext_in; intros x Hx; simpl.
      replace (Nat.eqb x i) with false; [reflexivity|].
      symmetry; apply Nat.eqb_neq; intros ->; contradiction. }
    eapply Permutation_trans; [apply Permutation_app_head, IH, Hnd'|].
    eapply Permutation_trans; [|apply (filter_split_perm _ (fun x => negb (memn x used)) (sim i))].
    rewrite Hg; apply Permutation_app_head.
    replace (filter (fun x => negb (memn x u)) is)
      with (filter (fun x => negb (memn x used) && negb (sim i x)) is);
      [apply Permutation_refl|].
    apply filter_ext_in; intros x Hx.
    assert (Hxi : x <> i) by (intros ->; contradiction).
    destruct (memn x u) eqn:Hxu.
    - apply memn_In, Hu in Hxu; simpl in Hxu.
      destruct Hxu as [[->|Hxu]|Hxu]; [congruence| |].
      + apply memn_In in Hxu; rewrite Hxu; reflexivity.
      + rewrite Hg, filter_In in Hxu; destruct Hxu as [_ Hxu].
        apply andb_true_iff in Hxu; destruct Hxu as [_ ->].
        apply andb_false_r.
    - apply memn_false in Hxu; rewrite Hu in Hxu; simpl in Hxu.
      assert (Hnu : memn x used = false) by (apply memn_false; tauto).
      rewrite Hnu; simpl.
      destruct (sim i x) eqn:Hs; [|reflexivity].
      exfalso; apply Hxu; right; rewrite Hg, filter_In, Hnu, Hs; tauto.
  Qed.
End GroupingProofs.

Lemma SSorted_lt_NoDup : forall l, StronglySorted lt l -> NoDup l.
Proof.
  induction 1 as [|a l _ IH HF]; constructor; [|exact IH].
  intros Ha; rewrite Forall_forall in HF; specialize (HF a Ha); lia.
Qed.

Lemma SSorted_filter : forall (f : nat -> bool) l,
  StronglySorted lt l -> StronglySorted lt (filter f l).
Proof.
  intros f; induction 1 as [|a l _ IH HF]; simpl; [constructor|].
  destruct (f a); [|exact IH].
  constructor; [exact IH|].
  rewrite Forall_forall in *; intros x Hx; apply filter_In in Hx; apply HF, Hx.
Qed.

Lemma SSorted_seq : forall a n, StronglySorted lt (seq a n).
Proof.
  intros a n; revert a; induction n as [|n IH]; intros a; simpl; constructor.
  - apply IH.
  - rewrite Forall_forall; intros x Hx; apply in_seq in Hx; lia.
Qed.

Lemma NoDup_app_disjoint : forall (A : Type) (l1 l2 : list A) x,
  NoDup (l1 ++ l2) -> In x l1 -> ~ In x l2.
Proof.
  intros A l1; induction l1 as [|a l1 IH]; intros l2 x Hnd Hx; [destruct Hx|].
  inversion Hnd as [|? ? Ha Hnd']; subst.
  destruct Hx as [->|Hx]; [intros H; apply Ha, in_app_iff; right; exact H|].
  apply (IH l2 x Hnd' Hx).
Qed.

(** Groups of a duplicate-free concatenation share no member. *)
Lemma concat_NoDup_same : forall (A : Type) (G : list (list A)) g g' x,
  NoDup (concat G) -> In g G -> In g' G -> In x g -> In x g' -> g = g'.
Proof.
  intros A G; induction G as [|h G IH]; intros g g' x Hnd Hg Hg' Hx Hx';
    [destruct Hg|].
  simpl in Hnd.
  destruct Hg as [<-|Hg], Hg' as [<-|Hg']; try reflexivity.
  - exfalso; apply (NoDup_app_disjoint _ _ _ x Hnd Hx).
    apply in_concat; exists g'; split; assumption.
  - exfalso; apply (NoDup_app_disjoint _ _ _ x Hnd Hx').
    apply in_concat; exists g; split; assumption.
  - apply (IH g g' x); try assumption.
    apply (NoDup_app_remove_l h), Hnd.
Qed.

Section GroupingStructure.
Variable sim : nat -> nat -> bool.
  Local Open Scope nat_scope.

  (** The shape of the [k]-th group: a seed, then the later unused
      indices similar to it, in index order; no later unused index
      similar to the seed is left out of the groups built so far. *)
Lemma outer_groups : forall is used,
    StronglySorted lt is ->
    forall k g, nth_error (outer sim is used) k = Some g ->
    exists s rest, g = s :: rest /\ In s is /\ memn s used = false
      /\ StronglySorted lt g
      /\ (forall j, In j rest -> In j is /\ s < j /\ sim s j = true
                                  /\ memn j used = false)
      /\ (forall j, In j is -> s < j -> sim s j = true ->
            memn j used = true
            \/ In j (concat (firstn (S k) (outer sim is used)))).
  Proof.
    intros is; induction is as [|i is IH]; intros used Hs k g Hk;
      [destruct k; discriminate|].
    inversion Hs as [|? ? Hs' HF]; subst.
    pose proof (SSorted_lt_NoDup _ Hs') as Hnd'.
    rewrite Forall_forall in HF.
    simpl in Hk |- *.
    destruct (memn i used) eqn:Hm.
    - destruct (IH used Hs' k g Hk) as (s & rest & -> & Hsin & Hsu & Hsort & Hrest & Hmax).
      exists s, rest; split; [reflexivity|]; split; [right; exact Hsin|].
      split; [exact Hsu|]; split; [exact Hsort|]; split.
      + intros j Hj; destruct (Hrest j Hj) as (H1 & H2 & H3 & H4).
        split; [right; exact H1 | split; [exact H2 | split; assumption]].
      + intros j [->|Hj] Hlt Hsim; [specialize (HF s Hsin); lia|].
        apply Hmax; assumption.
    - destruct (scan_spec sim i is (i :: used) Hnd') as [Hf Hu].
      destruct (scan sim i is (i :: used)) as [g0 u] eqn:E; simpl in Hf, Hu.
      destruct k as [|k]; simpl in Hk.
      + injection Hk as <-.
        exists i, g0; split; [reflexivity|]; split; [left; reflexivity|].
        split; [exact Hm|]; split; [|split].
        * constructor; [rewrite Hf; apply SSorted_filter, Hs'|].
          rewrite Forall_forall; intros j Hj; rewrite Hf, filter_In in Hj; apply HF, Hj.
        * intros j Hj; rewrite Hf, filter_In in Hj; destruct Hj as [Hj Hb].
          apply andb_true_iff in Hb; destruct Hb as [Hb Hsim].
          simpl in Hb; apply negb_true_iff, orb_false_iff in Hb.
          split; [right; exact Hj | split; [apply HF, Hj | split; [exact Hsim | apply Hb]]].
        * intros j [->|Hj] Hlt Hsim; [lia|].
          destruct (memn j used) eqn:Hju; [left; reflexivity|right].
          simpl; rewrite app_nil_r; right; rewrite Hf, filter_In; split; [exact Hj|].
          simpl; rewrite Hju, Hsim, orb_false_r.
          replace (Nat.eqb j i) with false; [reflexivity|].
          symmetry; apply Nat.eqb_neq; lia.
      + destruct (IH u Hs' k g Hk) as (s & rest & -> & Hsin & Hsu & Hsort & Hrest & Hmax).
        assert (Hused : forall j, memn j u = false -> memn j used = false).
        { intros j Hj; apply memn_false; apply memn_false in Hj; rewrite Hu in Hj.
          simpl in Hj; tauto. }
        exists s, rest; split; [reflexivity|]; split; [right; exact Hsin|].
        split; [apply Hused, Hsu|]; split; [exact Hsort|]; split.
        * intros j Hj; destruct (Hrest j Hj) as (H1 & H2 & H3 & H4).
          split; [right; exact H1 | split; [exact H2 | split; [exact H3 | apply Hused, H4]]].
        * intros j [->|Hj] Hlt Hsim; [specialize (HF s Hsin); lia|].
          destruct (Hmax j Hj Hlt Hsim) as [Hju|Hin].
          -- apply memn_In, Hu in Hju; simpl in Hju.
             destruct Hju as [[->|Hju]|Hju].
             ++ specialize (HF s Hsin); lia.
             ++ left; apply memn_In, Hju.
             ++ right; simpl; right; apply in_app_iff; left; exact Hju.
          -- right; simpl; right; apply in_app_iff; right; exact Hin.
  Qed.

  (** Seeds are taken in index order. *)
Lemma outer_heads : forall is used,
    StronglySorted lt is ->
    forall k k' g g', k < k' ->
    nth_error (outer sim is used) k = Some g ->
    nth_error (outer sim is used) k' = Some g' ->
    hd 0 g < hd 0 g'.
  Proof.
    intros is; induction is as [|i is IH]; intros used Hs k k' g g' Hlt Hk Hk';
      [destruct k; discriminate|].
    inversion Hs as [|? ? Hs' HF]; subst.
    rewrite Forall_forall in HF.
    simpl in Hk, Hk'.
    destruct (memn i used) eqn:Hm; [apply (IH used Hs' k k'); assumption|].
    destruct (scan sim i is (i :: used)) as [g0 u] eqn:E.
    destruct k' as [|k']; [lia|].
    simpl in Hk'.
    destruct (outer_groups is u Hs' k' g' Hk') as (s' & rest' & -> & Hs'in & _).
    destruct k as [|k]; simpl in Hk.
    - injection Hk as <-; simpl; apply HF, Hs'in.
    - apply (IH u Hs' k k'); [lia | exact Hk | exact Hk'].
  Qed.

  (** Two indices that are similar to each other both ways and that every
      index finds equally similar end up in one group. *)
Lemma outer_same_group : forall is used i j,
    NoDup is -> In i is -> In j is ->
    memn i used = false -> memn j used = false ->
    sim i j = true -> sim j i = true -> (forall k, sim k i = sim k j) ->
    exists g, In g (outer sim is used) /\ In i g /\ In j g.
  Proof.
    intros is; induction is as [|x is IH];
      intros used i j Hnd Hi Hj Hiu Hju Hij Hji Hk; [destruct Hi|].
    inversion Hnd as [|? ? Hx Hnd']; subst.
    simpl.
    destruct (memn x used) eqn:Hm.
    - assert (x <> i) by (intros ->; congruence).
      assert (x <> j) by (intros ->; congruence).
      destruct Hi as [->|Hi]; [congruence|]; destruct Hj as [->|Hj]; [congruence|].
      apply IH; assumption.
    - destruct (scan_spec sim x is (x :: used) Hnd') as [Hf Hu].
      destruct (scan sim x is (x :: used)) as [g0 u] eqn:E; simpl in Hf, Hu.
      assert (Hin : forall y, In y is -> y <> x -> memn y used = false ->
                    sim x y = true -> In y g0).
      { intros y Hy Hyx Hyu Hs; rewrite Hf, filter_In; split; [exact Hy|].
        simpl; rewrite Hyu, Hs, orb_false_r.
        replace (Nat.eqb y x) with false; [reflexivity|].
        symmetry; apply Nat.eqb_neq; exact Hyx. }
      destruct (Nat.eq_dec x i) as [<-|Hxi].
      + exists (x :: g0); split; [left; reflexivity|]; split; [left; reflexivity|].
        destruct Hj as [->|Hj]; [left; reflexivity|right].
        apply Hin; try assumption; intros ->; contradiction.
      + destruct (Nat.eq_dec x j) as [<-|Hxj].
        * exists (x :: g0); split; [left; reflexivity|]; split; [|left; reflexivity].
          destruct Hi as [->|Hi]; [congruence|right].
          apply Hin; try assumption; congruence.
        * destruct Hi as [->|Hi]; [congruence|]; destruct Hj as [->|Hj]; [congruence|].
          destruct (sim x i) eqn:Hxs.
          -- exists (x :: g0); split; [left; reflexivity|].
             split; right; apply Hin; try assumption; try congruence.
          -- assert (Hni : ~ In i g0).
             { rewrite Hf, filter_In; simpl; rewrite Hxs, andb_false_r; intuition discriminate. }
             assert (Hnj : ~ In j g0).
             { rewrite Hf, filter_In; simpl; rewrite <- Hk, Hxs, andb_false_r;
                 intuition discriminate. }
             destruct (IH u i j) as (g & Hg & Hgi & Hgj); try assumption.
             ++ apply memn_false; rewrite Hu; simpl; apply memn_false in Hiu; intuition.
             ++ apply memn_false; rewrite Hu; simpl; apply memn_false in Hju; intuition.
             ++ exists g; split; [right; exact Hg | split; assumption].
  Qed.
End GroupingStructure.

(** ** Groups of responses *)

Lemma filter_unused_nil : forall l, filter (fun x => negb (memn x [])) l = l.
Proof. intros l; simpl; apply filter_true. Qed.

Lemma groupIndices_perm : forall rs,
  Permutation (concat (groupIndices rs)) (seq 0 (length rs)).
Proof.
  intros rs; unfold groupIndices.
  rewrite <- (filter_unused_nil (seq 0 (length rs))) at 2.
  apply outer_perm, seq_NoDup.
Qed.

Lemma groupIndices_NoDup : forall rs, NoDup (concat (groupIndices rs)).
Proof.
  intros rs; apply Permutation_NoDup with (seq 0 (length rs)).
  - apply Permutation_sym, groupIndices_perm.
  - apply seq_NoDup.
Qed.

Lemma groupIndices_shape : forall rs k g,
  nth_error (groupIndices rs) k = Some g ->
  exists s rest, g = s :: rest /\ In s (seq 0 (length rs)) /\ StronglySorted lt g
    /\ (forall j, In j rest -> In j (seq 0 (length rs)) /\ (s < j)%nat
                               /\ simIdx rs s j = true)
    /\ (forall j, In j (seq 0 (length rs)) -> (s < j)%nat -> simIdx rs s j = true ->
          In j (concat (firstn (S k) (groupIndices rs)))).
Proof.
  intros rs k g Hk.
  destruct (outer_groups (simIdx rs) (seq 0 (length rs)) [] (SSorted_seq 0 _) k g Hk)
    as (s & rest & Hg & Hs & _ & Hsort & Hrest & Hmax).
  exists s, rest; split; [exact Hg|]; split; [exact Hs|]; split; [exact Hsort|]; split.
  - intros j Hj; destruct (Hrest j Hj) as (H1 & H2 & H3 & _); auto.
  - intros j Hj Hlt Hsim; destruct (Hmax j Hj Hlt Hsim) as [H|H]; [discriminate | exact H].
Qed.

Lemma groupIndices_in_range : forall rs g i,
  In g (groupIndices rs) -> In i g -> (i < length rs)%nat.
Proof.
  intros rs g i Hg Hi.
  assert (H : In i (seq 0 (length rs))).
  { apply (Permutation_in _ (groupIndices_perm rs)), in_concat; exists g; auto. }
  apply in_seq in H; lia.
Qed.

Lemma self_similar : forall r, areSimilar r r = true.
Proof. intros r; apply (same_tokens_similar r r); tauto. Qed.

(** Equal records at two positions land in the same group. *)
Lemma equal_records_same_group : forall rs i j r,
  nth_error rs i = Some r -> nth_error rs j = Some r ->
  exists g, In g (groupIndices rs) /\ In i g /\ In j g.
Proof.
  intros rs i j r Hi Hj; unfold groupIndices.
  apply outer_same_group; try reflexivity.
  - apply seq_NoDup.
  - apply in_seq; split; [lia|]; apply nth_error_Some; congruence.
  - apply in_seq; split; [lia|]; apply nth_error_Some; congruence.
  - unfold simIdx; rewrite Hi, Hj; apply self_similar.
  - unfold simIdx; rewrite Hi, Hj; apply self_similar.
  - intros k; unfold simIdx; rewrite Hi, Hj; reflexivity.
Qed.

Lemma pick_In : forall rs g r,
  In r (pick rs g) <-> exists i, In i g /\ nth_error rs i = Some r.
Proof.
  intros rs g r; unfold pick; rewrite in_flat_map; split.
  - intros [i [Hi Hr]]; exists i; split; [exact Hi|].
    destruct (nth_error rs i); [destruct Hr as [->|[]]; reflexivity | destruct Hr].
  - intros [i [Hi Hr]]; exists i; split; [exact Hi|]; rewrite Hr; left; reflexivity.
Qed.

Lemma pick_app : forall rs l1 l2, pick rs (l1 ++ l2) = pick rs l1 ++ pick rs l2.
Proof. intros; unfold pick; apply flat_map_app. Qed.

Lemma pick_perm : forall rs l l', Permutation l l' -> Permutation (pick rs l) (pick rs l').
Proof. intros rs l l' H; unfold pick; apply Permutation_flat_map; exact H. Qed.

Lemma pick_seq_app : forall rs pre,
  pick (pre ++ rs) (seq (length pre) (length rs)) = rs.
Proof.
  induction rs as [|r rs IH]; intros pre; [reflexivity|].
  simpl length; simpl seq; unfold pick; simpl.
  rewrite nth_error_app2, Nat.sub_diag by lia; simpl.
  f_equal.
  specialize (IH (pre ++ [r])).
  rewrite <- app_assoc, length_app in IH; simpl in IH.
  rewrite Nat.add_1_r in IH; exact IH.
Qed.

Lemma pick_seq : forall rs, pick rs (seq 0 (length rs)) = rs.
Proof. intros rs; exact (pick_seq_app rs []). Qed.

Lemma pick_length : forall rs g,
  (forall i, In i g -> (i < length rs)%nat) -> length (pick rs g) = length g.
Proof.
  intros rs g; induction g as [|i g IH]; intros H; [reflexivity|].
  unfold pick; simpl.
  destruct (nth_error rs i) eqn:E.
  - simpl; f_equal; apply IH; intros j Hj; apply H; right; exact Hj.
  - exfalso; apply nth_error_None in E; specialize (H i (or_introl eq_refl)); lia.
Qed.

Lemma includes_In : forall g r, includes g r = true <-> In r g.
Proof.
  intros g r; unfold includes; rewrite existsb_exists; split.
  - intros [x [Hx Heq]]; destruct (response_eq_dec x r); [subst; exact Hx | discriminate].
  - intros H; exists r; split; [exact H|]; destruct (response_eq_dec r r); congruence.
Qed.

(** [largestGroup] keeps the first group of maximal size. *)
Lemma largest_fold : forall (A : Type) (gs pre : list (list A)) acc ka,
  nth_error pre ka = Some acc ->
  (forall g, In g pre -> (length g <= length acc)%nat) ->
  (forall k' g', (k' < ka)%nat -> nth_error pre k' = Some g' ->
                 (length g' < length acc)%nat) ->
  exists k, nth_error (pre ++ gs) k
              = Some (fold_left (fun max group =>
                        if Nat.ltb (length max) (length group) then group else max) gs acc)
    /\ (forall g, In g (pre ++ gs) ->
          (length g <= length (fold_left (fun max group =>
             if Nat.ltb (length max) (length group) then group else max) gs acc))%nat)
    /\ (forall k' g', (k' < k)%nat -> nth_error (pre ++ gs) k' = Some g' ->
          (length g' < length (fold_left (fun max group =>
             if Nat.ltb (length max) (length group) then group else max) gs acc))%nat).
Proof.
  intros A gs; induction gs as [|g gs IH]; intros pre acc ka Hka Hle Hlt.
  - exists ka; rewrite app_nil_r; auto.
  - assert (Hka' : (ka < length pre)%nat)
      by (apply nth_error_Some; congruence).
    simpl fold_left.
    replace (pre ++ g :: gs) with ((pre ++ [g]) ++ gs) by (rewrite <- app_assoc; reflexivity).
    destruct (Nat.ltb (length acc) (length g)) eqn:E.
    + apply Nat.ltb_lt in E.
      apply (IH (pre ++ [g]) g (length pre)).
      * rewrite nth_error_app2, Nat.sub_diag by lia; reflexivity.
      * intros g' Hg'; apply in_app_iff in Hg'; destruct Hg' as [Hg'|[<-|[]]]; [|lia].
        specialize (Hle g' Hg'); lia.
      * intros k' g' Hk' Hn; rewrite nth_error_app1 in Hn by lia.
        specialize (Hle g' (nth_error_In _ _ Hn)); lia.
    + apply Nat.ltb_ge in E.
      apply (IH (pre ++ [g]) acc ka).
      * rewrite nth_error_app1 by lia; exact Hka.
      * intros g' Hg'; apply in_app_iff in Hg'; destruct Hg' as [Hg'|[<-|[]]]; [|lia].
        apply Hle, Hg'.
      * intros k' g' Hk' Hn; rewrite nth_error_app1 in Hn by lia; apply (Hlt k'); assumption.
Qed.

Lemma largestGroup_spec : forall (A : Type) (G : list (list A)),
  G <> [] ->
  exists k m, largestGroup G = Resolved m /\ nth_error G k = Some m
    /\ (forall g, In g G -> (length g <= length m)%nat)
    /\ (forall k' g', (k' < k)%nat -> nth_error G k' = Some g' ->
                      (length g' < length m)%nat).
Proof.
  intros A [|g0 gs] HG; [congruence|].
  destruct (largest_fold A gs [g0] g0 0) as (k & Hk & Hle & Hlt).
  - reflexivity.
  - intros g [<-|[]]; lia.
  - intros k' g' Hk'; lia.
  - exists k, (fold_left (fun max group =>
        if Nat.ltb (length max) (length group) then group else max) gs g0).
    split; [reflexivity|]; split; [exact Hk|]; split; assumption.
Qed.

Lemma filter_pick : forall (f : Response -> bool) rs l,
  filter f (pick rs l)
  = pick rs (filter (fun i => match nth_error rs i with
                              | Some r => f r | None => false end) l).
Proof.
  intros f rs l; induction l as [|i l IH]; [reflexivity|].
  unfold pick in *; simpl.
  destruct (nth_error rs i) as [r|] eqn:E; simpl; [|exact IH].
  destruct (f r); simpl; rewrite ?E; simpl; rewrite IH; reflexivity.
Qed.

Lemma group_NoDup : forall rs g, In g (groupIndices rs) -> NoDup g.
Proof.
  intros rs g Hg; apply In_nth_error in Hg; destruct Hg as [k Hk].
  destruct (groupIndices_shape rs k g Hk) as (s & rest & _ & _ & Hsort & _).
  apply SSorted_lt_NoDup, Hsort.
Qed.

(** A response belongs (by record) to a group exactly when its index does. *)
Lemma includes_group : forall rs gi i r,
  In gi (groupIndices rs) -> nth_error rs i = Some r ->
  includes (pick rs gi) r = memn i gi.
Proof.
  intros rs gi i r Hgi Hi.
  destruct (memn i gi) eqn:Hm.
  - apply includes_In, pick_In; exists i; split; [apply memn_In, Hm | exact Hi].
  - destruct (includes (pick rs gi) r) eqn:Hinc; [|reflexivity].
    apply includes_In, pick_In in Hinc; destruct Hinc as [j [Hj Hjr]].
    destruct (equal_records_same_group rs i j r Hi Hjr) as (g' & Hg' & Hig & Hjg).
    assert (g' = gi) as ->.
    { apply (concat_NoDup_same _ (groupIndices rs) g' gi j);
        [apply groupIndices_NoDup | | | |]; assumption. }
    apply memn_false in Hm; contradiction.
Qed.

Lemma perm_group_rest : forall (gi L : list nat),
  NoDup gi -> NoDup L -> incl gi L ->
  Permutation (gi ++ filter (fun i => negb (memn i gi)) L) L.
Proof.
  intros gi L Hgi HL Hincl.
  pose proof (filter_split_perm _ (fun _ => true) (fun i => memn i gi) L) as P.
  rewrite filter_true in P; eapply Permutation_trans; [|exact P].
  apply Permutation_app_tail, NoDup_Permutation; [exact Hgi | apply NoDup_filter, HL|].
  intros x; rewrite filter_In; simpl; rewrite memn_In; split; [intros H; split; auto | tauto].
Qed.

(** The dissenting list and the majority group split the responses. *)
Lemma dissent_partition : forall rs gi,
  In gi (groupIndices rs) ->
  let maj := pick rs gi in
  let d := filter (fun r => negb (includes maj r)) rs in
  Permutation (maj ++ d) rs /\ (forall r, In r d <-> In r rs /\ ~ In r maj).
Proof.
  intros rs gi Hgi maj d; split.
  - assert (Hd : d = pick rs (filter (fun i => negb (memn i gi)) (seq 0 (length rs)))).
    { unfold d; rewrite <- (pick_seq rs) at 1; rewrite filter_pick.
      f_equal; apply filter_ext_in; intros i Hi; apply in_seq in Hi.
      destruct (nth_error rs i) as [r|] eqn:E.
      - unfold maj; rewrite (includes_group rs gi i r Hgi E); reflexivity.
      - apply nth_error_None in E; lia. }
    rewrite Hd; unfold maj; rewrite <- pick_app.
    rewrite <- (pick_seq rs) at 3; apply pick_perm, perm_group_rest.
    + apply (group_NoDup rs), Hgi.
    + apply seq_NoDup.
    + intros i Hi; apply in_seq; split; [lia|].
      apply (groupIndices_in_range rs gi i Hgi Hi).
  - intros r; unfold d; rewrite filter_In, negb_true_iff.
    split.
    + intros [Hr Hn]; split; [exact Hr|]; intros Hm; apply includes_In in Hm; congruence.
    + intros [Hr Hn]; split; [exact Hr|].
      destruct (includes maj r) eqn:E; [apply includes_In in E; contradiction | reflexivity].
Qed.

Lemma groupSimilarResponses_nonempty : forall rs,
  rs <> [] -> groupSimilarResponses rs <> [].
Proof.
  intros rs Hrs; unfold groupSimilarResponses.
  destruct (groupIndices rs) eqn:E; [|discriminate].
  exfalso; pose proof (groupIndices_perm rs) as P; rewrite E in P; simpl in P.
  apply Permutation_nil in P.
  destruct rs; [congruence | discriminate].
Qed.

(** What [calculateConsensus] computes on a nonempty list. *)
Lemma calculateConsensus_spec : forall rs,
  rs <> [] ->
  exists k gi res,
    nth_error (groupIndices rs) k = Some gi
    /\ largestGroup (groupSimilarResponses rs) = Resolved (pick rs gi)
    /\ (forall g, In g (groupSimilarResponses rs) -> (length g <= length (pick rs gi))%nat)
    /\ (forall k' g', (k' < k)%nat -> nth_error (groupSimilarResponses rs) k' = Some g' ->
                      (length g' < length (pick rs gi))%nat)
    /\ calculateConsensus rs = Resolved res
    /\ core_agreement res = ratio (length (pick rs gi)) (length rs)
    /\ core_confidence res = calculateConfidence (pick rs gi) rs
    /\ (exists r0 rest, pick rs gi = r0 :: rest /\ core_result res = content r0)
    /\ core_dissenting res =
         match filter (fun r => negb (includes (pick rs gi) r)) rs with
         | [] => None
         | d => Some d
         end.
Proof.
  intros rs Hrs.
  destruct (largestGroup_spec _ _ (groupSimilarResponses_nonempty rs Hrs))
    as (k & m & Hlg & Hk & Hle & Hlt).
  unfold groupSimilarResponses in Hk; rewrite nth_error_map in Hk.
  destruct (nth_error (groupIndices rs) k) as [gi|] eqn:Egi; [|discriminate].
  simpl in Hk; injection Hk as <-.
  destruct (groupIndices_shape rs k gi Egi) as (s & rest & Hg & Hs & _).
  assert (Hsr : exists r0, nth_error rs s = Some r0).
  { apply in_seq in Hs; destruct (nth_error rs s) eqn:E; [eauto|].
    apply nth_error_None in E; lia. }
  destruct Hsr as [r0 Hr0].
  assert (Hpick : pick rs gi = r0 :: pick rs rest)
    by (rewrite Hg; unfold pick; simpl; rewrite Hr0; reflexivity).
  eexists k, gi, _; split; [exact Egi|]; split; [exact Hlg|].
  split; [exact Hle|]; split; [exact Hlt|]; split.
  { unfold calculateConsensus; rewrite Hlg; cbn [bind].
    replace (synthesizeResponse (pick rs gi)) with (Resolved (content r0))
      by (rewrite Hpick; reflexivity).
    cbn [bind]; reflexivity. }
  cbn [core_agreement core_confidence core_result core_dissenting].
  split; [reflexivity|]; split; [reflexivity|].
  split; [exists r0, (pick rs rest); split; [exact Hpick | reflexivity]|].
  destruct (filter _ rs); reflexivity.
Qed.

(** Two responses with the same token set land in the same group. *)
Lemma same_tokens_same_group : forall rs i j a b,
  nth_error rs i = Some a -> nth_error rs j = Some b ->
  (forall x, In x (tokens (content a)) <-> In x (tokens (content b))) ->
  exists g, In g (groupIndices rs) /\ In i g /\ In j g.
Proof.
  intros rs i j a b Hi Hj Hab; unfold groupIndices.
  destruct (same_tokens_similar a b Hab) as (_ & Hsab & Hsba & Hc).
  apply outer_same_group; try reflexivity.
  - apply seq_NoDup.
  - apply in_seq; split; [lia|]; apply nth_error_Some; congruence.
  - apply in_seq; split; [lia|]; apply nth_error_Some; congruence.
  - unfold simIdx; rewrite Hi, Hj; exact Hsab.
  - unfold simIdx; rewrite Hi, Hj; exact Hsba.
  - intros k; unfold simIdx; rewrite Hi, Hj; destruct (nth_error rs k); auto.
Qed.

(** ** Ratios *)

Lemma ratio_nonneg : forall a b, 0 <= ratio a b.
Proof.
  intros a b; unfold ratio.
  destruct b as [|b].
  - unfold Qdiv, Qle; simpl; lia.
  - apply Qle_shift_div_l.
    + unfold Qlt; simpl; lia.
    + rewrite Qmult_0_l; unfold Qle; simpl; lia.
Qed.

Lemma ratio_le_1 : forall a b, (a <= b)%nat -> ratio a b <= 1.
Proof.
  intros a b H; unfold ratio.
  destruct b as [|b].
  - assert (a = 0%nat) as -> by lia; unfold Qdiv, Qle; simpl; lia.
  - apply Qle_shift_div_r.
    + unfold Qlt; simpl; lia.
    + rewrite Qmult_1_l; unfold Qle; simpl; lia.
Qed.

(** ** [Promise.all] *)

Lemma sequence_resolved : forall (A : Type) (ps : list (outcome A)) vs,
  sequence ps = Resolved vs -> ps = map Resolved vs.
Proof.
  intros A ps; induction ps as [|p ps IH]; intros vs H; simpl in H.
  - injection H as <-; reflexivity.
  - destruct p as [v|e]; [|discriminate].
    destruct (sequence ps) as [vs'|e] eqn:E; simpl in H; [|discriminate].
    injection H as <-; simpl; f_equal; apply IH; reflexivity.
Qed.

Lemma sequence_rejected : forall (A : Type) (ps : list (outcome A)) e,
  sequence ps = Rejected e -> In (Rejected e) ps.
Proof.
  intros A ps; induction ps as [|p ps IH]; intros e H; simpl in H; [discriminate|].
  destruct p as [v|e'].
  - destruct (sequence ps) eqn:E; simpl in H; [discriminate|].
    injection H as ->; right; apply IH; reflexivity.
  - injection H as ->; left; reflexivity.
Qed.

Lemma sequence_map_resolved : forall (A : Type) (vs : list A),
  sequence (map Resolved vs) = Resolved vs.
Proof. intros A vs; induction vs as [|v vs IH]; simpl; [|rewrite IH]; reflexivity. Qed.

Lemma sequence_some_rejection : forall (A : Type) (ps : list (outcome A)) e,
  In (Rejected e) ps -> exists e', sequence ps = Rejected e'.
Proof.
  intros A ps; induction ps as [|p ps IH]; intros e H; [destruct H|].
  destruct p as [v|e']; simpl.
  - destruct H as [H|H]; [discriminate|].
    destruct (IH e H) as [e' ->]; eexists; reflexivity.
  - eexists; reflexivity.
Qed.

Lemma first_rejection_In : forall (A : Type) (ps : list (outcome A)) order e,
  first_rejection (map (fun i => nth_error ps i) order) = Some e -> In (Rejected e) ps.
Proof.
  intros A ps order; induction order as [|i order IH]; intros e H; simpl in H;
    [discriminate|].
  destruct (nth_error ps i) as [[v|e']|] eqn:E; auto.
  injection H as ->; eapply nth_error_In; exact E.
Qed.

Lemma first_rejection_map_resolved : forall (A : Type) (vs : list A) order,
  first_rejection (map (fun i => nth_error (map Resolved vs) i) order) = None.
Proof.
  intros A vs order; induction order as [|i order IH]; simpl; [reflexivity|].
  rewrite nth_error_map; destruct (nth_error vs i); simpl; exact IH.
Qed.

Lemma promise_all_resolved : forall (A : Type) order (ps : list (outcome A)) vs,
  promise_all order ps = Resolved vs -> ps = map Resolved vs.
Proof.
  intros A order ps vs; unfold promise_all.
  destruct (first_rejection _); [discriminate|]; apply sequence_resolved.
Qed.

Lemma promise_all_rejected : forall (A : Type) order (ps : list (outcome A)) e,
  promise_all order ps = Rejected e -> In (Rejected e) ps.
Proof.
  intros A order ps e; unfold promise_all.
  destruct (first_rejection _) eqn:E.
  - intros H; injection H as ->; eapply first_rejection_In; exact E.
  - apply sequence_rejected.
Qed.

Lemma promise_all_some_rejection : forall (A : Type) order (ps : list (outcome A)) e,
  In (Rejected e) ps -> exists e', promise_all order ps = Rejected e'.
Proof.
  intros A order ps e H; unfold promise_all.
  destruct (first_rejection _); [eexists; reflexivity|].
  eapply sequence_some_rejection; exact H.
Qed.

Lemma promise_all_map_resolved : forall (A : Type) order (vs : list A),
  promise_all order (map Resolved vs) = Resolved vs.
Proof.
  intros A order vs; unfold promise_all.
  rewrite first_rejection_map_resolved; apply sequence_map_resolved.
Qed.

(** ** [buildConsensus] *)

Lemma buildConsensus_resolved : forall reg prompt options order res,
  buildConsensus reg prompt options order = Resolved res ->
  exists rs core,
    resolveProviders reg options <> []
    /\ getResponses reg prompt (resolveProviders reg options) order = Resolved rs
    /\ length rs = length (resolveProviders reg options)
    /\ calculateConsensus rs = Resolved core
    /\ result res = core_result core /\ c_confidence res = core_confidence core
    /\ c_agreement res = core_agreement core /\ dissenting res = core_dissenting core
    /\ providers res = resolveProviders reg options.
Proof.
  intros reg prompt options order res H; unfold buildConsensus in H; cbv zeta in H.
  destruct (resolveProviders reg options) as [|n ns] eqn:En; [discriminate|].
  destruct (getResponses reg prompt (n :: ns) order) as [rs|e] eqn:Eg;
    cbn [bind] in H; [|discriminate].
  destruct (calculateConsensus rs) as [core|e] eqn:Ec; cbn [bind] in H; [|discriminate].
  injection H as <-.
  exists rs, core; split; [discriminate|]; split; [reflexivity|]; split.
  - unfold getResponses in Eg; apply promise_all_resolved in Eg.
    rewrite <- (length_map Resolved rs), <- Eg, length_map; reflexivity.
  - repeat split; assumption.
Qed.

Lemma group_length_le : forall rs gi,
  In gi (groupIndices rs) -> (length (pick rs gi) <= length rs)%nat.
Proof.
  intros rs gi Hin.
  rewrite pick_length by (intros i; apply groupIndices_in_range; exact Hin).
  rewrite <- (length_seq (length rs) 0).
  apply NoDup_incl_length; [apply (group_NoDup rs gi Hin)|].
  intros i Hi; apply in_seq; split; [lia|].
  apply (groupIndices_in_range rs gi i Hin Hi).
Qed.

(** Everything [buildConsensus] returns, in terms of the fan-out's
    responses [rs] and the majority group [maj]. *)
Lemma buildConsensus_majority : forall reg prompt options order res,
  buildConsensus reg prompt options order = Resolved res ->
  exists rs k maj,
    getResponses reg prompt (resolveProviders reg options) order = Resolved rs
    /\ length rs = length (resolveProviders reg options)
    /\ rs <> []
    /\ nth_error (groupSimilarResponses rs) k = Some maj
    /\ largestGroup (groupSimilarResponses rs) = Resolved maj
    /\ (forall g, In g (groupSimilarResponses rs) -> (length g <= length maj)%nat)
    /\ (forall k' g', (k' < k)%nat -> nth_error (groupSimilarResponses rs) k' = Some g' ->
                      (length g' < length maj)%nat)
    /\ (exists r0 rest, maj = r0 :: rest /\ result res = content r0)
    /\ (length maj <= length rs)%nat
    /\ c_agreement res = ratio (length maj) (length rs)
    /\ c_confidence res = calculateConfidence maj rs
    /\ dissenting res = match filter (fun r => negb (includes maj r)) rs with
                        | [] => None
                        | d => Some d
                        end
    /\ Permutation (maj ++ filter (fun r => negb (includes maj r)) rs) rs
    /\ (forall r, In r (filter (fun r => negb (includes maj r)) rs)
                  <-> In r rs /\ ~ In r maj).
Proof.
  intros reg prompt options order res H.
  destruct (buildConsensus_resolved _ _ _ _ _ H)
    as (rs & core & Hne & Hg & Hlen & Hc & Hr & Hcf & Ha & Hd & _).
  assert (Hrs : rs <> []).
  { intros ->; simpl in Hlen; destruct (resolveProviders reg options);
      [contradiction | discriminate]. }
  destruct (calculateConsensus_spec rs Hrs)
    as (k & gi & core' & Hk & Hlg & Hle & Hlt & Hc' & Hagr & Hconf & Hresult & Hdis).
  rewrite Hc in Hc'; injection Hc' as <-.
  assert (Hin : In gi (groupIndices rs)) by (eapply nth_error_In; exact Hk).
  destruct (dissent_partition rs gi Hin) as [Hperm Hmem].
  exists rs, k, (pick rs gi).
  split; [exact Hg|]; split; [exact Hlen|]; split; [exact Hrs|].
  split; [unfold groupSimilarResponses; rewrite nth_error_map, Hk; reflexivity|].
  split; [exact Hlg|]; split; [exact Hle|]; split; [exact Hlt|].
  split; [destruct Hresult as (r0 & rest & E & E'); exists r0, rest; split;
          [exact E | rewrite Hr; exact E']|].
  split; [apply group_length_le; exact Hin|].
  split; [rewrite Ha; exact Hagr|]; split; [rewrite Hcf; exact Hconf|].
  split; [rewrite Hd; exact Hdis|]; split; [exact Hperm | exact Hmem].
Qed.

Lemma unanimity_iff : forall (rs maj d : list Response),
  Permutation (maj ++ d) rs -> (forall r, In r d <-> In r rs /\ ~ In r maj) ->
  (incl rs maj <-> length maj = length rs) /\ (incl rs maj <-> d = []).
Proof.
  intros rs maj d Hp Hm.
  assert (Hd : incl rs maj <-> d = []).
  { split.
    - intros Hi; destruct d as [|x d]; [reflexivity|].
      destruct (proj1 (Hm x) (or_introl eq_refl)) as [Hx Hnx]; exfalso; apply Hnx, Hi, Hx.
    - intros ->; rewrite app_nil_r in Hp; intros r Hr.
      apply (Permutation_in _ (Permutation_sym Hp) Hr). }
  split; [|exact Hd].
  rewrite Hd; apply Permutation_length in Hp; rewrite length_app in Hp.
  split; [intros ->; simpl in Hp; lia|].
  intros E; destruct d; [reflexivity|]; simpl in Hp; lia.
Qed.

Lemma buildConsensus_pg : forall prompt order,
  buildConsensus reg_pg prompt default_consensus order = Resolved consensus_pg.
Proof.
  intros prompt order; unfold buildConsensus; cbv zeta.
  change (resolveProviders reg_pg default_consensus) with ["openai"; "anthropic"; "google"].
  change (getResponses reg_pg prompt ["openai"; "anthropic"; "google"] order)
    with (promise_all order (map Resolved [resp_pg1; resp_pg2; resp_mongo])).
  rewrite promise_all_map_resolved; vm_compute; reflexivity.
Qed.

(** ** Claims about [buildConsensus] *)

(** C1: on every successful [buildConsensus] call over the responses [rs]
    of the fan-out (one per resolved provider, so nonempty) with majority
    group [maj]: the agreement is [|maj| / |rs|] and lies in [[0, 1]]; the
    majority group holds all responses exactly when [|maj| = |rs|]; then
    the confidence is [min(1, agreement * 1.2)] and [dissenting] is absent;
    otherwise the confidence is the agreement and [dissenting] is present
    and holds exactly the responses that are not in [maj], in input order.
    A call with a single resolved provider that succeeds has agreement 1,
    confidence 1 and no dissenting responses. *)
Theorem buildConsensus_agreement_confidence :
  (forall reg prompt options order res,
    buildConsensus reg prompt options order = Resolved res ->
    exists rs maj,
      getResponses reg prompt (resolveProviders reg options) order = Resolved rs
      /\ length rs = length (resolveProviders reg options)
      /\ rs <> []
      /\ largestGroup (groupSimilarResponses rs) = Resolved maj
      /\ c_agreement res = ratio (length maj) (length rs)
      /\ 0 <= c_agreement res <= 1
      /\ (incl rs maj <-> length maj = length rs)
      /\ (incl rs maj ->
            c_confidence res = Qmin 1 (c_agreement res * (6 # 5))
            /\ dissenting res = None)
      /\ (~ incl rs maj ->
            c_confidence res = c_agreement res
            /\ exists d, dissenting res = Some d
                 /\ d = filter (fun r => negb (includes maj r)) rs
                 /\ (forall r, In r d <-> In r rs /\ ~ In r maj)))
  /\ (forall reg prompt options order res,
        length (resolveProviders reg options) = 1%nat ->
        buildConsensus reg prompt options order = Resolved res ->
        c_agreement res == 1 /\ c_confidence res == 1 /\ dissenting res = None).
Proof.
  split.
  - intros reg prompt options order res H.
    destruct (buildConsensus_majority _ _ _ _ _ H)
      as (rs & k & maj & Hg & Hlen & Hrs & Hk & Hlg & _ & _ & _ & Hle & Hagr & Hconf
          & Hdis & Hperm & Hmem).
    destruct (unanimity_iff rs maj _ Hperm Hmem) as [Hu Hd].
    exists rs, maj.
    split; [exact Hg|]; split; [exact Hlen|]; split; [exact Hrs|]; split; [exact Hlg|].
    split; [exact Hagr|].
    split; [rewrite Hagr; split; [apply ratio_nonneg | apply ratio_le_1; exact Hle]|].
    split; [exact Hu|]; split.
    + intros Hi; assert (E : length maj = length rs) by (apply Hu; exact Hi).
      split.
      * rewrite Hconf, Hagr; unfold calculateConfidence; cbv zeta.
        rewrite E, Nat.eqb_refl; reflexivity.
      * rewrite Hdis, (proj1 Hd Hi); reflexivity.
    + intros Hni.
      assert (E : Nat.eqb (length maj) (length rs) = false)
        by (apply Nat.eqb_neq; intros E; apply Hni, Hu, E).
      split; [rewrite Hconf, Hagr; unfold calculateConfidence; cbv zeta; rewrite E;
              reflexivity|].
      exists (filter (fun r => negb (includes maj r)) rs).
      split; [|split; [reflexivity | exact Hmem]].
      rewrite Hdis; destruct (filter _ rs) eqn:F; [|reflexivity].
      exfalso; apply Hni, Hd; reflexivity.
  - intros reg prompt options order res H1 H.
    destruct (buildConsensus_majority _ _ _ _ _ H)
      as (rs & k & maj & _ & Hlen & _ & _ & _ & _ & _ & Hhd & Hle & Hagr & Hconf
          & Hdis & Hperm & Hmem).
    destruct (unanimity_iff rs maj _ Hperm Hmem) as [Hu Hd].
    destruct Hhd as (r0 & rest & Hm & _).
    assert (Hrs : length rs = 1%nat) by (rewrite Hlen; exact H1).
    assert (Hmaj : length maj = 1%nat) by (rewrite Hm in Hle |- *; simpl in *; lia).
    rewrite Hagr, Hconf; unfold calculateConfidence; cbv zeta.
    rewrite Hmaj, Hrs; split; [reflexivity|]; split; [reflexivity|].
    rewrite Hdis, (proj1 Hd (proj2 Hu (eq_trans Hmaj (eq_sym Hrs)))); reflexivity.
Qed.

Lemma buildConsensus_agreement_confidence_witness :
  (buildConsensus reg_pg "Which database?" default_consensus [0; 1; 2]%nat
     = Resolved consensus_pg
   /\ 0 <= c_agreement consensus_pg <= 1)
  /\ (length (resolveProviders reg_pg (mkConsensusOptions (Some ["google"]))) = 1%nat
      /\ buildConsensus reg_pg "Which database?" (mkConsensusOptions (Some ["google"]))
           [0]%nat
         = Resolved (mkConsensusResult "Use MongoDB" (Qmin 1 (ratio 1 1 * (6 # 5)))
                       (ratio 1 1) ["google"] None 1 (0 + 0))
      /\ c_agreement (mkConsensusResult "Use MongoDB" (Qmin 1 (ratio 1 1 * (6 # 5)))
                       (ratio 1 1) ["google"] None 1 (0 + 0)) == 1).
Proof.
  assert (H1 : buildConsensus reg_pg "Which database?" default_consensus [0; 1; 2]%nat
                 = Resolved consensus_pg) by (vm_compute; reflexivity).
  assert (H2 : length (resolveProviders reg_pg (mkConsensusOptions (Some ["google"])))
                 = 1%nat) by reflexivity.
  assert (H3 : buildConsensus reg_pg "Which database?" (mkConsensusOptions (Some ["google"]))
                 [0]%nat
               = Resolved (mkConsensusResult "Use MongoDB" (Qmin 1 (ratio 1 1 * (6 # 5)))
                             (ratio 1 1) ["google"] None 1 (0 + 0)))
    by (vm_compute; reflexivity).
  split.
  - split; [exact H1|].
    destruct (proj1 buildConsensus_agreement_confidence _ _ _ _ _ H1)
      as (rs & maj & _ & _ & _ & _ & _ & Hb & _).
    exact Hb.
  - split; [exact H2|]; split; [exact H3|].
    exact (proj1 (proj2 buildConsensus_agreement_confidence _ _ _ _ _ H2 H3)).
Defined.

(** C2: on every successful [buildConsensus] call over responses [rs],
    the majority group is the group at some position [k] of the grouping
    pass's output: no group is larger, every group before position [k] is
    strictly smaller (ties go to the first group), and the result text is
    the content of the first response of that group.  On the responses
    "Use Postgres", "Use Postgres", "Use MongoDB" the majority group is
    the two Postgres responses, the agreement is 2/3 and the dissenting
    responses are exactly the MongoDB one. *)
Theorem buildConsensus_majority_group :
  (forall reg prompt options order res,
     buildConsensus reg prompt options order = Resolved res ->
     exists rs k maj,
       getResponses reg prompt (resolveProviders reg options) order = Resolved rs
       /\ rs <> []
       /\ largestGroup (groupSimilarResponses rs) = Resolved maj
       /\ nth_error (groupSimilarResponses rs) k = Some maj
       /\ (forall g, In g (groupSimilarResponses rs) -> (length g <= length maj)%nat)
       /\ (forall k' g', (k' < k)%nat -> nth_error (groupSimilarResponses rs) k' = Some g' ->
                         (length g' < length maj)%nat)
       /\ exists r0 rest, maj = r0 :: rest /\ result res = content r0)
  /\ (largestGroup (groupSimilarResponses [resp_pg1; resp_pg2; resp_mongo])
        = Resolved [resp_pg1; resp_pg2]
      /\ forall prompt order,
           exists res, buildConsensus reg_pg prompt default_consensus order = Resolved res
             /\ result res = "Use Postgres"
             /\ c_agreement res == 2 # 3
             /\ dissenting res = Some [resp_mongo]).
Proof.
  split.
  - intros reg prompt options order res H.
    destruct (buildConsensus_majority _ _ _ _ _ H)
      as (rs & k & maj & Hg & _ & Hrs & Hk & Hlg & Hle & Hlt & Hhd & _).
    exists rs, k, maj; repeat (split; [assumption|]); exact Hhd.
  - split; [vm_compute; reflexivity|].
    intros prompt order; exists consensus_pg; split; [apply buildConsensus_pg|].
    vm_compute; split; [reflexivity|]; split; reflexivity.
Qed.

Lemma buildConsensus_majority_group_witness :
  buildConsensus reg_pg "Which database?" default_consensus [2; 0; 1]%nat
    = Resolved consensus_pg
  /\ result consensus_pg = content resp_pg1.
Proof.
  assert (H : buildConsensus reg_pg "Which database?" default_consensus [2; 0; 1]%nat
                = Resolved consensus_pg) by (vm_compute; reflexivity).
  split; [exact H|].
  destruct (proj1 buildConsensus_majority_group _ _ _ _ _ H)
    as (rs & k & maj & Hg & _ & Hlg & _ & _ & _ & r0 & rest & Hm & Hr).
  vm_compute in Hg; injection Hg as <-.
  vm_compute in Hlg; injection Hlg as <-.
  rewrite Hr; injection Hm as <- _; reflexivity.
Defined.

(** ** The similarity predicate *)

(** C3: [areSimilar] holds exactly when the Jaccard ratio of the two
    case-insensitive whitespace token sets is strictly greater than 0.6
    (the code's ratio is 0 when the union is empty); two responses with
    the same token set have ratio 1, are similar, and at any two positions
    of a response list end up in the same group. *)
Theorem areSimilar_jaccard :
  (forall a b, areSimilar a b = true <->
     3 # 5 < jaccard_spec (token_set_spec (content a)) (token_set_spec (content b)))
  /\ jaccard_code [] [] = 0
  /\ (forall a b,
        (forall x, In x (token_set_spec (content a)) <-> In x (token_set_spec (content b))) ->
        jaccard_spec (token_set_spec (content a)) (token_set_spec (content b)) == 1
        /\ areSimilar a b = true)
  /\ (forall rs i j a b,
        nth_error rs i = Some a -> nth_error rs j = Some b ->
        (forall x, In x (token_set_spec (content a)) <-> In x (token_set_spec (content b))) ->
        exists g, In g (groupIndices rs) /\ In i g /\ In j g
          /\ In (pick rs g) (groupSimilarResponses rs)
          /\ In a (pick rs g) /\ In b (pick rs g)).
Proof.
  assert (Htok : forall a b,
    (forall x, In x (token_set_spec (content a)) <-> In x (token_set_spec (content b))) ->
    (forall x, In x (tokens (content a)) <-> In x (tokens (content b)))).
  { intros a b H x; rewrite !tokens_spec_In; apply H. }
  split; [|split; [reflexivity|split]].
  - intros a b; rewrite areSimilar_iff, similarity_spec; reflexivity.
  - intros a b H; destruct (same_tokens_similar a b (Htok a b H)) as (H1 & H2 & _).
    rewrite similarity_spec in H1; split; assumption.
  - intros rs i j a b Hi Hj H.
    destruct (same_tokens_same_group rs i j a b Hi Hj (Htok a b H)) as (g & Hg & Hig & Hjg).
    exists g; split; [exact Hg|]; split; [exact Hig|]; split; [exact Hjg|].
    split; [apply in_map; exact Hg|].
    split; apply pick_In; eauto.
Qed.

Lemma areSimilar_jaccard_witness :
  (forall x, In x (token_set_spec (content resp_pg1))
             <-> In x (token_set_spec (content resp_pg_caps)))
  /\ jaccard_spec (token_set_spec (content resp_pg1))
                  (token_set_spec (content resp_pg_caps)) == 1
  /\ exists g, In g (groupIndices [resp_pg1; resp_mongo; resp_pg_caps]) /\ In 0%nat g
               /\ In 2%nat g.
Proof.
  assert (H : forall x, In x (token_set_spec (content resp_pg1))
                        <-> In x (token_set_spec (content resp_pg_caps)))
    by (intros x; vm_compute; apply iff_refl).
  split; [exact H|]; split.
  - exact (proj1 (proj1 (proj2 (proj2 areSimilar_jaccard)) resp_pg1 resp_pg_caps H)).
  - destruct (proj2 (proj2 (proj2 areSimilar_jaccard)) [resp_pg1; resp_mongo; resp_pg_caps]
                0%nat 2%nat resp_pg1 resp_pg_caps eq_refl eq_refl H)
      as (g & Hg & H0 & H2 & _).
    exists g; split; [exact Hg|]; split; assumption.
Defined.

(** Two empty-content responses are similar and share one group. *)
Lemma empty_contents_counterexample :
  jaccard_code (tokens (content resp_empty1)) (tokens (content resp_empty2)) = 1
  /\ areSimilar resp_empty1 resp_empty2 = true
  /\ groupIndices [resp_empty1; resp_empty2] = [[0; 1]%nat].
Proof. vm_compute; split; [reflexivity|]; split; reflexivity. Qed.

(** C4 (amended): an empty content splits to the single empty token, so
    two responses with empty content have the token set [{""}] each,
    Jaccard similarity 1 (not 0), are similar, and grouping places them in
    the same group. *)
Theorem empty_contents_same_group : forall a b,
  content a = "" -> content b = "" ->
  tokens (content a) = [""]
  /\ jaccard_code (tokens (content a)) (tokens (content b)) == 1
  /\ areSimilar a b = true
  /\ (forall rs i j, nth_error rs i = Some a -> nth_error rs j = Some b ->
        exists g, In g (groupIndices rs) /\ In i g /\ In j g).
Proof.
  intros a b Ha Hb.
  assert (Hab : forall x, In x (tokens (content a)) <-> In x (tokens (content b)))
    by (rewrite Ha, Hb; tauto).
  destruct (same_tokens_similar a b Hab) as (H1 & H2 & _).
  split; [rewrite Ha; reflexivity|]; split; [exact H1|]; split; [exact H2|].
  intros rs i j Hi Hj; exact (same_tokens_same_group rs i j a b Hi Hj Hab).
Qed.

Lemma empty_contents_same_group_witness :
  content resp_empty1 = "" /\ content resp_empty2 = ""
  /\ exists g, In g (groupIndices [resp_empty1; resp_mongo; resp_empty2])
               /\ In 0%nat g /\ In 2%nat g.
Proof.
  assert (H1 : content resp_empty1 = "") by reflexivity.
  assert (H2 : content resp_empty2 = "") by reflexivity.
  split; [exact H1|]; split; [exact H2|].
  exact (proj2 (proj2 (proj2 (empty_contents_same_group resp_empty1 resp_empty2 H1 H2)))
           [resp_empty1; resp_mongo; resp_empty2] 0%nat 2%nat eq_refl eq_refl).
Defined.

(** ** The grouping pass *)

Lemma groupIndices_heads : forall rs k k' g g',
  (k < k')%nat -> nth_error (groupIndices rs) k = Some g ->
  nth_error (groupIndices rs) k' = Some g' -> (hd 0 g < hd 0 g')%nat.
Proof.
  intros rs; unfold groupIndices; apply outer_heads, SSorted_seq.
Qed.

Lemma NoDup_app_disjoint_r : forall (A : Type) (l1 l2 : list A) x,
  NoDup (l1 ++ l2) -> In x l2 -> ~ In x l1.
Proof.
  intros A l1 l2 x H Hx; apply (NoDup_app_disjoint A l2 l1 x); [|exact Hx].
  apply (Permutation_NoDup (Permutation_app_comm l1 l2)), H.
Qed.

(** The group at position [k]: its seed is the first index not placed in
    an earlier group, and the rest of it is exactly the later indices,
    similar to the seed, not placed in an earlier group. *)
Lemma groupIndices_seed : forall rs k g,
  nth_error (groupIndices rs) k = Some g ->
  exists s rest, g = s :: rest
    /\ (s < length rs)%nat
    /\ ~ In s (concat (firstn k (groupIndices rs)))
    /\ (forall i, (i < s)%nat -> In i (concat (firstn k (groupIndices rs))))
    /\ (forall j, In j rest <->
          ((s < j)%nat /\ (j < length rs)%nat /\ simIdx rs s j = true
           /\ ~ In j (concat (firstn k (groupIndices rs))))).
Proof.
  intros rs k g Hk.
  destruct (groupIndices_shape rs k g Hk) as (s & rest & Hg & Hs & _ & Hrest & Hall).
  destruct (nth_error_split _ _ Hk) as (l1 & l2 & HG & Hl1).
  assert (Hf : firstn k (groupIndices rs) = l1)
    by (rewrite HG, firstn_app, <- Hl1, firstn_all, Nat.sub_diag; simpl; apply app_nil_r).
  assert (HfS : concat (firstn (S k) (groupIndices rs)) = concat l1 ++ g).
  { rewrite HG, firstn_app, <- Hl1, firstn_all2 by lia.
    replace (S (length l1) - length l1)%nat with 1%nat by lia; simpl.
    rewrite concat_app; simpl; rewrite app_nil_r; reflexivity. }
  pose proof (groupIndices_NoDup rs) as Hnd.
  rewrite HG, concat_app in Hnd; simpl in Hnd.
  assert (Hnot : forall x, In x g -> ~ In x (concat l1)).
  { intros x Hx; apply (NoDup_app_disjoint_r _ _ _ x Hnd), in_app_iff; left; exact Hx. }
  rewrite Hf; apply in_seq in Hs.
  exists s, rest; split; [exact Hg|]; split; [lia|].
  split; [apply Hnot; rewrite Hg; left; reflexivity|].
  split.
  - intros i Hi.
    assert (Hin : In i (concat (groupIndices rs)))
      by (apply (Permutation_in _ (Permutation_sym (groupIndices_perm rs))), in_seq; lia).
    apply in_concat in Hin; destruct Hin as (h & Hh & Hih).
    rewrite HG in Hh; apply in_app_iff in Hh; destruct Hh as [Hh|[<-|Hh]].
    + apply in_concat; exists h; auto.
    + exfalso; rewrite Hg in Hih; destruct Hih as [->|Hih]; [lia|].
      destruct (Hrest i Hih) as (_ & Hsi & _); lia.
    + exfalso; destruct (In_nth_error _ _ Hh) as [m Hm].
      assert (Hk' : nth_error (groupIndices rs) (S k + m) = Some h).
      { rewrite HG, nth_error_app2 by lia.
        replace (S k + m - length l1)%nat with (S m) by lia; exact Hm. }
      pose proof (groupIndices_heads rs k (S k + m) g h ltac:(lia) Hk Hk') as Hh'.
      destruct (groupIndices_shape rs _ h Hk') as (s' & rest' & Hh2 & _ & _ & Hr' & _).
      rewrite Hg in Hh'; rewrite Hh2 in Hh', Hih; simpl in Hh'.
      destruct Hih as [->|Hih]; [lia|]; destruct (Hr' i Hih) as (_ & ? & _); lia.
  - intros j; split.
    + intros Hj; destruct (Hrest j Hj) as (Hjr & Hsj & Hsim).
      apply in_seq in Hjr; split; [exact Hsj|]; split; [lia|]; split; [exact Hsim|].
      apply Hnot; rewrite Hg; right; exact Hj.
    + intros (Hsj & Hjn & Hsim & Hj1).
      assert (H : In j (concat l1 ++ g))
        by (rewrite <- HfS; apply Hall; [apply in_seq; lia | exact Hsj | exact Hsim]).
      apply in_app_iff in H; destruct H as [H|H]; [contradiction|].
      rewrite Hg in H; destruct H as [->|H]; [lia | exact H].
Qed.

Lemma pick_concat : forall rs G, concat (map (pick rs) G) = pick rs (concat G).
Proof.
  intros rs G; induction G as [|g G IH]; simpl; [reflexivity|].
  rewrite pick_app, IH; reflexivity.
Qed.

(** C5: the grouping pass partitions the responses.  Read through the
    indices of the responses: every index lies in exactly one group; the
    group at position [k] is seeded by the first index not placed in an
    earlier group (so seeds follow input order) and holds, besides its
    seed, exactly the later indices not placed in an earlier group whose
    response is similar to the seed's.  The groups of responses are these
    index groups read back, their concatenation is a permutation of the
    input, and the pass depends on nothing but the response list, so two
    runs on the same list give the same groups and the same majority
    group. *)
Theorem groupSimilarResponses_partition : forall rs,
  groupSimilarResponses rs = map (pick rs) (groupIndices rs)
  /\ Permutation (concat (groupSimilarResponses rs)) rs
  /\ (forall i, (i < length rs)%nat -> exists! g, In g (groupIndices rs) /\ In i g)
  /\ (forall k g, nth_error (groupIndices rs) k = Some g ->
        exists s rest, g = s :: rest
          /\ (s < length rs)%nat
          /\ ~ In s (concat (firstn k (groupIndices rs)))
          /\ (forall i, (i < s)%nat -> In i (concat (firstn k (groupIndices rs))))
          /\ (forall j, In j rest <->
                ((s < j)%nat /\ (j < length rs)%nat /\ simIdx rs s j = true
                 /\ ~ In j (concat (firstn k (groupIndices rs))))))
  /\ (forall rs', rs' = rs ->
        groupSimilarResponses rs' = groupSimilarResponses rs
        /\ largestGroup (groupSimilarResponses rs') = largestGroup (groupSimilarResponses rs)).
Proof.
  intros rs; split; [reflexivity|]; split.
  - unfold groupSimilarResponses; rewrite pick_concat.
    eapply Permutation_trans; [apply pick_perm, groupIndices_perm|].
    rewrite pick_seq; apply Permutation_refl.
  - split; [|split; [exact (groupIndices_seed rs) | intros rs' ->; split; reflexivity]].
    intros i Hi.
    assert (Hin : In i (concat (groupIndices rs)))
      by (apply (Permutation_in _ (Permutation_sym (groupIndices_perm rs))), in_seq; lia).
    apply in_concat in Hin; destruct Hin as (g & Hg & Hig).
    exists g; split; [split; assumption|].
    intros g' (Hg' & Hig'); apply (concat_NoDup_same _ (groupIndices rs) g g' i);
      try assumption; apply groupIndices_NoDup.
Qed.

Lemma groupSimilarResponses_partition_witness :
  (exists! g, In g (groupIndices [resp_pg1; resp_mongo; resp_pg2]) /\ In 2%nat g)
  /\ (exists s rest, [1%nat] = s :: rest /\ ~ In s (concat (firstn 1 [[0; 2]; [1]]%nat))).
Proof.
  split.
  - apply (proj1 (proj2 (proj2 (groupSimilarResponses_partition
             [resp_pg1; resp_mongo; resp_pg2])))).
    simpl; lia.
  - assert (H : nth_error (groupIndices [resp_pg1; resp_mongo; resp_pg2]) 1 = Some [1%nat])
      by (vm_compute; reflexivity).
    destruct (proj1 (proj2 (proj2 (proj2 (groupSimilarResponses_partition
             [resp_pg1; resp_mongo; resp_pg2])))) 1%nat [1%nat] H)
      as (s & rest & E & _ & Hs & _).
    exists s, rest; split; [exact E|].
    replace (groupIndices [resp_pg1; resp_mongo; resp_pg2]) with [[0; 2]; [1]]%nat in Hs
      by (vm_compute; reflexivity).
    exact Hs.
Defined.

(** ** Debate agreement: the two nested loops *)

Lemma filter_ltb_seq : forall i n,
  filter (fun j => Nat.ltb i j) (seq 0 n) = seq (S i) (n - S i).
Proof.
  intros i n; induction n as [|n IH]; [reflexivity|].
  rewrite seq_S, filter_app, IH; simpl.
  destruct (Nat.ltb_spec i n).
  - replace (n - i)%nat with (S (n - S i)) by lia.
    rewrite seq_S; do 2 f_equal; lia.
  - replace (n - S i)%nat with 0%nat by lia; replace (n - i)%nat with 0%nat by lia.
    reflexivity.
Qed.

Lemma pairs_spec_flat_map : forall n,
  pairs_spec n = flat_map (fun i => map (pair i) (seq (S i) (n - S i))) (seq 0 n).
Proof.
  intros n; unfold pairs_spec.
  generalize (seq 0 n) at 1 3 as l; intros l.
  induction l as [|i l IH]; [reflexivity|].
  simpl; rewrite filter_app, filter_map_swap, IH; simpl.
  rewrite filter_ltb_seq; reflexivity.
Qed.

Lemma sumQ_app : forall l1 l2, sumQ (l1 ++ l2) == sumQ l1 + sumQ l2.
Proof.
  intros l1 l2; induction l1 as [|x l1 IH]; simpl.
  - rewrite Qplus_0_l; reflexivity.
  - rewrite IH, Qplus_assoc; reflexivity.
Qed.

Lemma inner_loop_sum : forall (h : nat -> nat -> Q) i js acc,
  fst (fold_left (fun acc j => (fst acc + h i j, S (snd acc))) js acc)
    == fst acc + sumQ (map (fun p => h (fst p) (snd p)) (map (pair i) js))
  /\ snd (fold_left (fun acc j => (fst acc + h i j, S (snd acc))) js acc)
    = (snd acc + length js)%nat.
Proof.
  intros h i js; induction js as [|j js IH]; intros acc; simpl.
  - split; [rewrite Qplus_0_r; reflexivity | lia].
  - destruct (IH (fst acc + h i j, S (snd acc))) as [H1 H2]; simpl in H1, H2.
    split; [rewrite H1, Qplus_assoc; reflexivity | lia].
Qed.

Lemma outer_loop_sum : forall (h : nat -> nat -> Q) n is acc,
  fst (fold_left (fun acc i =>
         fold_left (fun acc j => (fst acc + h i j, S (snd acc)))
           (seq (S i) (n - S i)) acc) is acc)
    == fst acc + sumQ (map (fun p => h (fst p) (snd p))
                        (flat_map (fun i => map (pair i) (seq (S i) (n - S i))) is))
  /\ snd (fold_left (fun acc i =>
         fold_left (fun acc j => (fst acc + h i j, S (snd acc)))
           (seq (S i) (n - S i)) acc) is acc)
    = (snd acc + length (flat_map (fun i => map (pair i) (seq (S i) (n - S i))) is))%nat.
Proof.
  intros h n is; induction is as [|i is IH]; intros acc; simpl.
  - split; [rewrite Qplus_0_r; reflexivity | lia].
  - destruct (inner_loop_sum h i (seq (S i) (n - S i)) acc) as [H1 H2].
    destruct (IH (fold_left (fun acc j => (fst acc + h i j, S (snd acc)))
                    (seq (S i) (n - S i)) acc)) as [H3 H4].
    rewrite map_app, length_app.
    split.
    + rewrite H3, H1, sumQ_app, Qplus_assoc; reflexivity.
    + rewrite H4, H2, length_map; lia.
Qed.

Lemma pairs_count : forall n m, (m <= n)%nat ->
  (2 * length (flat_map (fun i => map (pair i) (seq (S i) (n - S i))) (seq 0 m))
   + m * m + m = 2 * m * n)%nat.
Proof.
  intros n m; induction m as [|m IH]; intros Hm; [reflexivity|].
  rewrite seq_S, flat_map_app, length_app; simpl; rewrite app_nil_r, length_map, length_seq.
  specialize (IH ltac:(lia)).
  remember (length (flat_map (fun i => map (pair i) (seq (S i) (n - S i))) (seq 0 m))) as T.
  assert (n = S m + (n - S m))%nat as En by lia.
  remember (n - S m)%nat as e; rewrite En in IH |- *; nia.
Qed.

Lemma calculateSimilarity_spec : forall a b,
  calculateSimilarity (toLowerCase a) (toLowerCase b)
  = jaccard_spec (token_set_spec a) (token_set_spec b).
Proof.
  intros a b; unfold calculateSimilarity.
  apply jaccard_code_spec; try apply NoDup_nodup; apply tokens_spec_In.
Qed.

Lemma nth_lower : forall cs i,
  nth i (map toLowerCase cs) "" = toLowerCase (nth i cs "").
Proof. intros cs i; exact (map_nth toLowerCase cs "" i). Qed.

Lemma calculateAgreement_spec : forall rs,
  calculateAgreement rs == avgPairwiseJaccard (map content rs).
Proof.
  intros rs; unfold calculateAgreement, avgPairwiseJaccard.
  rewrite length_map.
  destruct (Nat.leb (length rs) 1) eqn:Hn; [reflexivity|].
  apply Nat.leb_gt in Hn.
  rewrite <- (map_map content toLowerCase).
  set (cs := map content rs).
  assert (Hcs : length cs = length rs) by apply length_map.
  set (n := length rs) in *.
  destruct (outer_loop_sum (fun i j => calculateSimilarity (nth i (map toLowerCase cs) "")
                                        (nth j (map toLowerCase cs) "")) n (seq 0 n) (0, 0%nat))
    as [H1 H2].
  unfold agreement_loops; rewrite length_map, Hcs.
  destruct (fold_left _ (seq 0 n) (0, 0%nat)) as [tot cmp] eqn:E.
  simpl in H1, H2; rewrite Qplus_0_l in H1.
  rewrite <- pairs_spec_flat_map in H1, H2.
  pose proof (pairs_count n n (le_n n)) as Hc; rewrite <- pairs_spec_flat_map in Hc.
  assert (Hpos : Nat.ltb 0 cmp = true) by (apply Nat.ltb_lt; nia).
  rewrite Hpos, H1.
  erewrite map_ext; [|intros p; rewrite !nth_lower, calculateSimilarity_spec; reflexivity].
  apply Qdiv_comp; [reflexivity|].
  assert (H2c : (2 * cmp = n * (n - 1))%nat)
    by (rewrite Nat.mul_sub_distr_l, Nat.mul_1_r; lia).
  assert (Hq : inject_Z (Z.of_nat (2 * cmp)) == inject_Z (Z.of_nat (n * (n - 1))))
    by (rewrite H2c; reflexivity).
  rewrite !Nat2Z.inj_mul, !inject_Z_mult in Hq.
  rewrite <- Hq; simpl (Z.of_nat 2); field.
Qed.

(** ** The debate loop *)

Lemma qlt_iff : forall a b, qlt a b = true <-> a < b.
Proof.
  intros a b; unfold qlt; rewrite negb_true_iff; split.
  - intros H; apply Qnot_le_lt; intros H'; apply Qle_bool_iff in H'; congruence.
  - intros H; destruct (Qle_bool b a) eqn:E; [|reflexivity].
    apply Qle_bool_iff in E; exfalso; apply (Qlt_not_le a b H E).
Qed.

Lemma qlt_ceiling : forall z q, inject_Z z < q -> (z < Qceiling q)%Z.
Proof.
  intros z q H; rewrite Zlt_Qlt; apply Qlt_le_trans with q; [exact H | apply Qle_ceiling].
Qed.

Lemma last_opt_In : forall (A : Type) (l : list A) x, last_opt l = Some x -> In x l.
Proof.
  intros A l; induction l as [|y l IH]; intros x H; [discriminate|].
  destruct l as [|z l]; simpl in H.
  - injection H as ->; left; reflexivity.
  - right; apply IH; exact H.
Qed.


Lemma last_opt_cons_cons : forall (A : Type) (x y : A) l,
  last_opt (x :: y :: l) = last_opt (y :: l).
Proof. reflexivity. Qed.

Section LoopTrace.
Variables t m : Q.


Lemma trace_agreements : forall agr rnd new fin,
    loop_trace t m agr rnd new fin ->
    Forall (fun r => round_agreement r = calculateAgreement (arguments r)) new.
  Proof.
    intros agr rnd new fin H; induction H; constructor; assumption.
  Qed.

Lemma trace_last : forall agr rnd new fin,
    loop_trace t m agr rnd new fin ->
    (new = [] /\ fin = agr) \/ (exists r, last_opt new = Some r /\ fin = round_agreement r).
  Proof.
    intros agr rnd new fin H; induction H as [|agr rnd r rest fin _ _ _ _ _ IH];
      [left; split; reflexivity|right].
    destruct IH as [[-> ->]|(r' & Hl & ->)].
    - exists r; split; reflexivity.
    - exists r'; split; [|reflexivity].
      destruct rest; [discriminate | rewrite last_opt_cons_cons; exact Hl].
  Qed.

Lemma trace_exit : forall agr rnd new fin,
    loop_trace t m agr rnd new fin ->
    ~ (fin < t /\ inject_Z (Z.of_nat (rnd + length new)) < m).
  Proof.
    intros agr rnd new fin H; induction H as [agr rnd Hs|agr rnd r rest fin _ _ _ _ _ IH].
    - rewrite Nat.add_0_r; exact Hs.
    - simpl length; rewrite <- plus_n_Sm; exact IH.
  Qed.

Lemma trace_budget : forall agr rnd new fin,
    loop_trace t m agr rnd new fin -> new <> [] ->
    inject_Z (Z.of_nat (rnd + length new - 1)) < m.
  Proof.
    intros agr rnd new fin H; induction H as [|agr rnd r rest fin _ Hm _ _ Ht IH];
      intros Hne; [contradiction|].
    destruct rest as [|r' rest].
    - simpl; replace (rnd + 1 - 1)%nat with rnd by lia; exact Hm.
    - specialize (IH ltac:(discriminate)).
      replace (rnd + length (r :: r' :: rest) - 1)%nat
        with (S rnd + length (r' :: rest) - 1)%nat by (simpl; lia).
      exact IH.
  Qed.


End LoopTrace.

Section DebateLoopProofs.
Variable o : Orchestra.
Variable ps : list string.
Variables t m : Q.
Variable order : nat -> list nat.

  (** With enough fuel, the rounds the loop appends form a [loop_trace]. *)
Lemma debate_loop_trace : forall fuel prompt rs agr rnd rs' fin,
    (Qceiling m <= Z.of_nat rnd + Z.of_nat fuel)%Z ->
    debate_loop o ps t m order fuel prompt rs agr rnd = Resolved (rs', fin) ->
    exists new, rs' = rs ++ new /\ loop_trace t m agr rnd new fin.
  Proof.
    intros fuel; induction fuel as [|fuel IH];
      intros prompt rs agr rnd rs' fin Hf H; cbn [debate_loop] in H.
    - injection H as <- <-; exists []; split; [symmetry; apply app_nil_r|].
      constructor; intros [_ Hm]; apply qlt_ceiling in Hm; lia.
    - destruct (qlt agr t && qlt (inject_Z (Z.of_nat rnd)) m) eqn:C.
      + apply andb_prop in C; destruct C as [C1 C2]; apply qlt_iff in C1, C2.
        destruct (promise_all (order (S rnd)) (map (fun p => query o prompt (Some p)) ps))
          as [responses|e]; cbn [bind] in H; [|discriminate].
        set (x := mkRound (S rnd) responses (calculateAgreement responses)) in H.
        assert (Hf' : (Qceiling m <= Z.of_nat (S rnd) + Z.of_nat fuel)%Z) by lia.
        assert (Hstep : forall p', debate_loop o ps t m order fuel p' (rs ++ [x])
                           (calculateAgreement responses) (S rnd) = Resolved (rs', fin) ->
                        exists new, rs' = rs ++ new /\ loop_trace t m agr rnd new fin).
        { intros p' Hp'; destruct (IH _ _ _ _ _ _ Hf' Hp') as (new & -> & Htr).
          exists (x :: new); split; [rewrite <- app_assoc; reflexivity|].
          apply trace_step; auto. }
        destruct (qlt (calculateAgreement responses) t
                  && qlt (inject_Z (Z.of_nat (S rnd))) m).
        * destruct (buildDebatePrompt prompt (rs ++ [x])) as [p'|e]; cbn [bind] in H;
            [exact (Hstep p' H) | discriminate].
        * exact (Hstep prompt H).
      + injection H as <- <-; exists []; split; [symmetry; apply app_nil_r|].
        constructor; intros [H1 H2]; apply qlt_iff in H1, H2.
        rewrite H1, H2 in C; discriminate.
  Qed.

Hypothesis queries_resolve : forall prompt p, In p ps ->
    exists r, query o prompt (Some p) = Resolved r.


End DebateLoopProofs.


Lemma debate_resolved : forall o prompt options order res,
  debate o prompt options order = Resolved res ->
  loop_trace (resolveThreshold o options) (resolveMaxRounds o options) 0 0
    (rounds res) (agreement res)
  /\ confidence res = agreement res
  /\ participants res = resolveParticipants o options
  /\ exists r b rest, last_opt (rounds res) = Some r /\ arguments r = b :: rest
                      /\ decision res = content b.
Proof.
  intros o prompt options order res H; unfold debate in H; cbv zeta in H.
  match type of H with
  | bind (debate_loop ?o ?ps ?t ?m ?ord ?f ?p ?rs ?a ?r) _ = _ =>
      destruct (debate_loop o ps t m ord f p rs a r) as [[rs' agr]|e] eqn:E;
      cbn [bind] in H; [|discriminate]
  end.
  destruct (synthesizeDecision rs') as [d|e] eqn:Sd; cbn [bind] in H; [|discriminate].
  injection H as <-; cbn [rounds agreement confidence participants decision].
  apply debate_loop_trace in E; [|lia].
  destruct E as (new & -> & Htr).
  split; [exact Htr|]; split; [reflexivity|]; split; [reflexivity|].
  unfold synthesizeDecision in Sd; simpl app in Sd |- *.
  destruct (last_opt new) as [r|]; [|discriminate].
  destruct (arguments r) as [|b rest] eqn:Ea; [discriminate|].
  injection Sd as <-; exists r, b, rest; split; [reflexivity|]; split; [exact Ea | reflexivity].
Qed.

(** Every round the loop adds carries one response per participant. *)
Lemma debate_loop_arguments : forall o ps t m order fuel prompt rs agr rnd rs' fin,
  debate_loop o ps t m order fuel prompt rs agr rnd = Resolved (rs', fin) ->
  forall r, In r rs' -> In r rs \/ length (arguments r) = length ps.
Proof.
  intros o ps t m order fuel; induction fuel as [|fuel IH];
    intros prompt rs agr rnd rs' fin H; cbn [debate_loop] in H.
  - injection H as <- <-; auto.
  - destruct (qlt agr t && qlt (inject_Z (Z.of_nat rnd)) m);
      [|injection H as <- <-; auto].
    destruct (promise_all (order (S rnd)) (map (fun p => query o prompt (Some p)) ps))
      as [responses|e] eqn:P; cbn [bind] in H; [|discriminate].
    assert (Hl : length responses = length ps).
    { apply promise_all_resolved in P.
      rewrite <- (length_map (fun p => query o prompt (Some p)) ps), P, length_map.
      reflexivity. }
    set (x := mkRound (S rnd) responses (calculateAgreement responses)) in H.
    assert (Hstep : forall p', debate_loop o ps t m order fuel p' (rs ++ [x])
                       (calculateAgreement responses) (S rnd) = Resolved (rs', fin) ->
                    forall r, In r rs' -> In r rs \/ length (arguments r) = length ps).
    { intros p' Hp' r Hr; destruct (IH _ _ _ _ _ _ Hp' r Hr) as [Hr'|Hr']; [|right; exact Hr'].
      apply in_app_iff in Hr'; destruct Hr' as [Hr'|[<-|[]]]; [left; exact Hr'|].
      right; exact Hl. }
    destruct (qlt (calculateAgreement responses) t
              && qlt (inject_Z (Z.of_nat (S rnd))) m).
    + destruct (buildDebatePrompt prompt (rs ++ [x])) as [p'|e]; cbn [bind] in H;
        [exact (Hstep p' H) | discriminate].
    + exact (Hstep prompt H).
Qed.

(** ** Claims about [debate] *)




(** C7: the agreement of a list of responses is the average Jaccard
    similarity of the case-insensitive whitespace token sets of their
    contents over all unordered pairs (no grouping), and it is 1 for at
    most one response; on a debate call that resolves, every recorded
    round's agreement is the agreement of that round's responses, and the
    confidence equals the returned agreement. *)
Theorem debate_agreement_pairwise :
  (forall rs, calculateAgreement rs == avgPairwiseJaccard (map content rs))
  /\ (forall rs, (length rs <= 1)%nat -> calculateAgreement rs = 1)
  /\ (forall o prompt options order res,
        debate o prompt options order = Resolved res ->
        Forall (fun r => round_agreement r = calculateAgreement (arguments r)) (rounds res)
        /\ confidence res = agreement res).
Proof.
  split; [exact calculateAgreement_spec|]; split.
  - intros rs H; unfold calculateAgreement.
    replace (Nat.leb (length rs) 1) with true by (symmetry; apply Nat.leb_le; exact H).
    reflexivity.
  - intros o prompt options order res H.
    destruct (debate_resolved _ _ _ _ _ H) as (Htr & Hc & _).
    split; [exact (trace_agreements _ _ _ _ _ _ Htr) | exact Hc].
Qed.

Lemma debate_agreement_pairwise_witness :
  (length [resp_pg1] <= 1)%nat /\ calculateAgreement [resp_pg1] = 1
  /\ debate orchestra_two "Which database?" no_options (fun _ => [0; 1]%nat)
       = Resolved debate_two_result
  /\ confidence debate_two_result = agreement debate_two_result.
Proof.
  assert (H1 : (length [resp_pg1] <= 1)%nat) by (simpl; lia).
  assert (H2 : debate orchestra_two "Which database?" no_options (fun _ => [0; 1]%nat)
                 = Resolved debate_two_result) by (vm_compute; reflexivity).
  split; [exact H1|]; split; [exact (proj1 (proj2 debate_agreement_pairwise) _ H1)|].
  split; [exact H2|].
  exact (proj2 (proj2 (proj2 debate_agreement_pairwise) _ _ _ _ _ H2)).
Defined.

(** ** Failures of [buildConsensus] *)

(** An empty provider list rejects with a plain [Error], and a rejecting
    provider's reason reaches the caller unwrapped, without the provider's
    name. *)
Lemma buildConsensus_errors_counterexample :
  buildConsensus reg_pg "Which database?" (mkConsensusOptions (Some [])) []
    = Rejected (mkError "Error" "No providers available for consensus")
  /\ buildConsensus reg_fail "Which database?" default_consensus [2; 0; 1]%nat
    = Rejected (mkError "Error" "rate limited").
Proof. split; vm_compute; reflexivity. Qed.

(** C8 (amended): [buildConsensus] rejects with
    [Error('No providers available for consensus')] (a plain [Error]) when
    the resolved provider set is empty; with a nonempty set every
    rejection is the rejection of one of the provider calls (an
    unregistered name rejects with [Error('Provider <name> not found')],
    a registered one with whatever its [complete] rejects with, passed
    through unwrapped); and as soon as one provider call rejects, the whole
    call rejects, with no partial result, with the reason of one of the
    rejecting calls. *)
Theorem buildConsensus_errors :
  (forall reg prompt options order,
     resolveProviders reg options = [] ->
     buildConsensus reg prompt options order
       = Rejected (mkError "Error" "No providers available for consensus"))
  /\ (forall reg prompt name,
        reg_get reg name = None ->
        provider_call reg prompt name
          = Rejected (mkError "Error" ("Provider " +++ name +++ " not found")))
  /\ (forall reg prompt options order e,
        resolveProviders reg options <> [] ->
        buildConsensus reg prompt options order = Rejected e ->
        exists name, In name (resolveProviders reg options)
                     /\ provider_call reg prompt name = Rejected e)
  /\ (forall reg prompt options order name e,
        In name (resolveProviders reg options) ->
        provider_call reg prompt name = Rejected e ->
        exists e', buildConsensus reg prompt options order = Rejected e'
          /\ exists name', In name' (resolveProviders reg options)
                           /\ provider_call reg prompt name' = Rejected e').
Proof.
  assert (Horigin : forall reg prompt options order e,
    resolveProviders reg options <> [] ->
    buildConsensus reg prompt options order = Rejected e ->
    exists name, In name (resolveProviders reg options)
                 /\ provider_call reg prompt name = Rejected e).
  { intros reg prompt options order e Hne H; unfold buildConsensus in H; cbv zeta in H.
    destruct (resolveProviders reg options) as [|n ns] eqn:En; [contradiction|].
    destruct (getResponses reg prompt (n :: ns) order) as [rs|e'] eqn:Eg;
      cbn [bind] in H.
    - exfalso.
      assert (Hrs : rs <> []).
      { unfold getResponses in Eg; apply promise_all_resolved in Eg.
        intros ->; discriminate. }
      destruct (calculateConsensus_spec rs Hrs) as (_ & _ & core & _ & _ & _ & _ & Hc & _).
      rewrite Hc in H; discriminate.
    - injection H as ->; unfold getResponses in Eg; apply promise_all_rejected in Eg.
      apply in_map_iff in Eg; destruct Eg as (name & Hc & Hin); exists name; auto. }
  split; [|split; [|split]].
  - intros reg prompt options order H; unfold buildConsensus; cbv zeta; rewrite H.
    reflexivity.
  - intros reg prompt name H; unfold provider_call; rewrite H; reflexivity.
  - exact Horigin.
  - intros reg prompt options order name e Hin Hc.
    assert (Hne : resolveProviders reg options <> []) by (intros E; rewrite E in Hin; exact Hin).
    assert (Hrej : exists e', buildConsensus reg prompt options order = Rejected e').
    { destruct (promise_all_some_rejection _ order
                  (map (provider_call reg prompt) (resolveProviders reg options)) e)
        as [e' He']; [rewrite <- Hc; apply in_map; exact Hin|].
      exists e'; unfold buildConsensus; cbv zeta.
      destruct (resolveProviders reg options); [contradiction|].
      unfold getResponses in *; rewrite He'; reflexivity. }
    destruct Hrej as [e' He']; exists e'; split; [exact He'|].
    exact (Horigin _ _ _ _ _ Hne He').
Qed.

Lemma buildConsensus_errors_witness :
  buildConsensus reg_pg "Which database?" (mkConsensusOptions (Some [])) []
    = Rejected (mkError "Error" "No providers available for consensus")
  /\ provider_call reg_pg "Which database?" "mistral"
       = Rejected (mkError "Error" "Provider mistral not found")
  /\ (exists name, In name (resolveProviders reg_fail default_consensus)
        /\ provider_call reg_fail "Which database?" name
           = Rejected (mkError "Error" "rate limited"))
  /\ (exists e', buildConsensus reg_fail "Which database?" default_consensus [0; 1; 2]%nat
                  = Rejected e').
Proof.
  assert (H1 : buildConsensus reg_fail "Which database?" default_consensus [2; 0; 1]%nat
                 = Rejected (mkError "Error" "rate limited")) by (vm_compute; reflexivity).
  assert (H2 : resolveProviders reg_fail default_consensus <> []) by (vm_compute; discriminate).
  assert (H3 : In "google" (resolveProviders reg_fail default_consensus))
    by (simpl; auto).
  assert (H4 : provider_call reg_fail "Which database?" "google"
                 = Rejected (mkError "Error" "rate limited")) by (vm_compute; reflexivity).
  split; [apply (proj1 buildConsensus_errors); reflexivity|].
  split; [apply (proj1 (proj2 buildConsensus_errors)); reflexivity|].
  split; [exact (proj1 (proj2 (proj2 buildConsensus_errors)) _ _ _ _ _ H2 H1)|].
  destruct (proj2 (proj2 (proj2 buildConsensus_errors)) _ "Which database?" _ [0; 1; 2]%nat
              _ _ H3 H4) as (e' & He' & _).
  exists e'; exact He'.
Defined.

(** ** [healthCheck] *)

Lemma obj_get_put : forall obj k v n,
  obj_get (obj_put obj k v) n = if String.eqb k n then Some v else obj_get obj n.
Proof.
  intros obj; induction obj as [|[k' w] obj IH]; intros k v n; simpl.
  - reflexivity.
  - destruct (String.eqb k' k) eqn:E1; simpl.
    + apply String.eqb_eq in E1; subst k'.
      destruct (String.eqb k n); reflexivity.
    + destruct (String.eqb k' n) eqn:E2.
      * apply String.eqb_eq in E2; subst k'.
        destruct (String.eqb k n) eqn:E3; [|reflexivity].
        apply String.eqb_eq in E3; subst k; rewrite String.eqb_refl in E1; discriminate.
      * apply IH.
Qed.

Lemma fold_health : forall (f : string -> bool) l acc n,
  n <> "__proto__" ->
  obj_get (fold_left (fun h k => obj_set h k (f k)) l acc) n
  = if existsb (String.eqb n) l then Some (f n) else obj_get acc n.
Proof.
  intros f l; induction l as [|k l IH]; intros acc n Hn; simpl; [reflexivity|].
  rewrite IH by exact Hn.
  destruct (existsb (String.eqb n) l); [rewrite orb_true_r; reflexivity|].
  rewrite orb_false_r; unfold obj_set.
  destruct (String.eqb n k) eqn:E.
  - apply String.eqb_eq in E; subst k.
    destruct (String.eqb n "__proto__") eqn:Ep; [apply String.eqb_eq in Ep; contradiction|].
    rewrite obj_get_put, String.eqb_refl; reflexivity.
  - destruct (String.eqb k "__proto__"); [reflexivity|].
    rewrite obj_get_put.
    replace (String.eqb k n) with false; [reflexivity|].
    symmetry; rewrite String.eqb_sym; exact E.
Qed.

Lemma fold_health_unset : forall (f : string -> bool) l acc n,
  existsb (String.eqb n) l = false ->
  obj_get (fold_left (fun h k => obj_set h k (f k)) l acc) n = obj_get acc n.
Proof.
  intros f l; induction l as [|k l IH]; intros acc n Hn; simpl in *; [reflexivity|].
  apply orb_false_iff in Hn; destruct Hn as [Hk Hl].
  rewrite IH by exact Hl; unfold obj_set.
  destruct (String.eqb k "__proto__"); [reflexivity|].
  rewrite obj_get_put, String.eqb_sym, Hk; reflexivity.
Qed.

Lemma reg_get_listed : forall reg name p,
  reg_get reg name = Some p -> existsb (String.eqb name) (reg_list reg) = true.
Proof.
  intros reg; induction reg as [|[k q] reg IH]; intros name p H; simpl in H; [discriminate|].
  simpl; destruct (String.eqb k name) eqn:E.
  - rewrite String.eqb_sym, E; reflexivity.
  - rewrite (IH name p H), orb_true_r; reflexivity.
Qed.

(** C9: for every registered provider other than one named
    ["__proto__"], the [healthCheck] mapping has exactly one entry: [true]
    when the provider has no probe, the probe's result when it resolves,
    [false] when it throws; a name that is not registered has no entry.
    A provider registered as ["__proto__"] gets no entry at all: the
    assignment [health['__proto__'] = true] on the plain object [{}]
    reaches the prototype setter, which ignores a boolean. *)
Theorem healthCheck_entries :
  (forall o name p,
     reg_get (registry o) name = Some p -> name <> "__proto__" ->
     obj_get (healthCheck o) name
       = Some (match healthProbe p with
               | None => true
               | Some (Resolved b) => b
               | Some (Rejected _) => false
               end))
  /\ (forall o name,
        existsb (String.eqb name) (getProviders o) = false ->
        obj_get (healthCheck o) name = None)
  /\ (In "__proto__" (getProviders (addProvider orchestra_two "__proto__" cfg_key))
      /\ reg_get (registry (addProvider orchestra_two "__proto__" cfg_key)) "__proto__"
           <> None
      /\ obj_get (healthCheck (addProvider orchestra_two "__proto__" cfg_key)) "__proto__"
           = None
      /\ length (healthCheck (addProvider orchestra_two "__proto__" cfg_key)) = 2%nat
      /\ length (getProviders (addProvider orchestra_two "__proto__" cfg_key)) = 3%nat).
Proof.
  split; [|split].
  - intros o name p Hp Hn.
    pose proof (fold_health (fun name => probe_result (reg_get (registry o) name))
                  (reg_list (registry o)) [] name Hn) as H.
    unfold healthCheck; rewrite H, (reg_get_listed _ _ _ Hp), Hp; reflexivity.
  - intros o name Hl; unfold healthCheck.
    exact (fold_health_unset (fun name => probe_result (reg_get (registry o) name))
             (reg_list (registry o)) [] name Hl).
  - vm_compute; split; [auto|]; split; [discriminate|]; split; [reflexivity|].
    split; reflexivity.
Qed.

Lemma healthCheck_entries_witness :
  obj_get (healthCheck (mkOrchestra cfg_two reg_fail)) "google" = Some false
  /\ obj_get (healthCheck (mkOrchestra cfg_two reg_fail)) "openai" = Some true.
Proof.
  split.
  - exact (proj1 healthCheck_entries (mkOrchestra cfg_two reg_fail) "google" failing_provider
             eq_refl ltac:(discriminate)).
  - exact (proj1 healthCheck_entries (mkOrchestra cfg_two reg_fail) "openai"
             (const_provider resp_pg1) eq_refl ltac:(discriminate)).
Defined.

(** ** Participant sets of [debate] and [consensus] *)

Lemma config_run_ops : forall ops o, config (run_ops o ops) = config o.
Proof.
  intros ops; induction ops as [|op ops IH]; intros o; [reflexivity|].
  simpl; rewrite IH; destruct op; reflexivity.
Qed.

Lemma reg_set_listed : forall reg n p, In n (reg_list (reg_set reg n p)).
Proof.
  intros reg n p; induction reg as [|[k q] reg IH]; simpl; [auto|].
  destruct (String.eqb k n) eqn:E; simpl; [left; apply String.eqb_eq; exact E | right; exact IH].
Qed.

Lemma reg_delete_get : forall reg n, reg_get (reg_delete reg n) n = None.
Proof.
  intros reg n; induction reg as [|[k q] reg IH]; simpl; [reflexivity|].
  destruct (String.eqb k n) eqn:E; simpl; [exact IH|rewrite E; exact IH].
Qed.

Lemma reg_delete_unlisted : forall reg n, ~ In n (reg_list (reg_delete reg n)).
Proof.
  intros reg n; unfold reg_list, reg_delete; rewrite in_map_iff.
  intros ([k q] & Hk & Hin); simpl in Hk; subst k.
  apply filter_In in Hin; destruct Hin as [_ H]; simpl in H.
  rewrite String.eqb_refl in H; discriminate.
Qed.

Lemma query_unregistered : forall o prompt n,
  n <> "" -> reg_get (registry o) n = None ->
  query o prompt (Some n) = Rejected (Error ("Provider " +++ n +++ " not found")).
Proof.
  intros o prompt n Hn Hr; unfold query, or_str.
  destruct (String.eqb n "") eqn:E; [apply String.eqb_eq in E; contradiction|].
  rewrite Hr; reflexivity.
Qed.

(** A participant whose query always rejects makes the first round, and
    so the debate, reject. *)
Lemma debate_participant_rejects : forall o prompt options order n,
  0 < resolveThreshold o options -> 0 < resolveMaxRounds o options ->
  In n (resolveParticipants o options) ->
  (forall pr, exists e, query o pr (Some n) = Rejected e) ->
  exists e, debate o prompt options order = Rejected e.
Proof.
  intros o prompt options order n Ht Hm Hn Hq.
  unfold debate; cbv zeta.
  set (t := resolveThreshold o options) in *; set (m := resolveMaxRounds o options) in *.
  set (ps := resolveParticipants o options) in *.
  assert (Hc : (0 < Qceiling m)%Z) by (apply qlt_ceiling; exact Hm).
  destruct (Z.to_nat (Qceiling m)) as [|f] eqn:Ef; [lia|].
  cbn [debate_loop].
  replace (qlt 0 t && qlt (inject_Z (Z.of_nat 0)) m) with true
    by (symmetry; apply andb_true_intro; split; apply qlt_iff; assumption).
  destruct (Hq prompt) as [e He].
  destruct (promise_all_some_rejection _ (order 1%nat)
              (map (fun p => query o prompt (Some p)) ps) e) as [e' He'].
  { rewrite <- He; apply (in_map (fun p => query o prompt (Some p))); exact Hn. }
  rewrite He'; exists e'; reflexivity.
Qed.

(** The debate with a removed provider named [""] still resolves: the
    query for [""] falls back to the default provider. *)
Lemma participants_counterexample :
  In "openai" (resolveProviders
                 (registry (addProvider (removeProvider orchestra_two "openai") "openai" cfg_key))
                 default_consensus)
  /\ In "openai" (resolveParticipants
                   (addProvider (removeProvider orchestra_two "openai") "openai" cfg_key)
                   no_options).
Proof.
  split; vm_compute; auto.
Qed.

(** C10 (amended): without [options.providers], debate's participants are
    always the construction-time config's provider names, whatever
    [addProvider]/[removeProvider] calls followed, while a default
    consensus uses the live registry's listing.  So after [addProvider n],
    [n] is in the default consensus set, and in debate's default set
    exactly when [n] is a config name; after [removeProvider n] for a
    config name [n], [n] stays in debate's default set and leaves the
    consensus set, and for a nonempty name [n] its query rejects with
    [Error('Provider n not found')], which makes a debate that runs a
    round reject. *)
Theorem default_participants :
  (forall o ops,
     resolveParticipants (run_ops o ops) no_options = map fst (cfg_providers (config o)))
  /\ (forall o, resolveProviders (registry o) default_consensus = getProviders o)
  /\ (forall o n c,
        In n (resolveProviders (registry (addProvider o n c)) default_consensus)
        /\ (In n (resolveParticipants (addProvider o n c) no_options)
            <-> In n (map fst (cfg_providers (config o)))))
  /\ (forall o n,
        In n (map fst (cfg_providers (config o))) ->
        In n (resolveParticipants (removeProvider o n) no_options)
        /\ ~ In n (resolveProviders (registry (removeProvider o n)) default_consensus)
        /\ (n <> "" -> forall prompt,
              query (removeProvider o n) prompt (Some n)
                = Rejected (Error ("Provider " +++ n +++ " not found"))))
  /\ (forall o prompt options order n,
        0 < resolveThreshold o options -> 0 < resolveMaxRounds o options ->
        In n (resolveParticipants o options) ->
        (forall pr, exists e, query o pr (Some n) = Rejected e) ->
        exists e, debate o prompt options order = Rejected e).
Proof.
  split; [|split; [|split; [|split]]].
  - intros o ops; unfold resolveParticipants; simpl; rewrite config_run_ops; reflexivity.
  - intros o; reflexivity.
  - intros o n c; split; [apply reg_set_listed | reflexivity].
  - intros o n Hn; split; [exact Hn|]; split; [apply reg_delete_unlisted|].
    intros Hne prompt; apply query_unregistered; [exact Hne | apply reg_delete_get].
  - exact debate_participant_rejects.
Qed.

Lemma default_participants_witness :
  In "anthropic" (resolveParticipants (removeProvider orchestra_two "anthropic") no_options)
  /\ query (removeProvider orchestra_two "anthropic") "Which database?" (Some "anthropic")
       = Rejected (Error "Provider anthropic not found")
  /\ exists e, debate (removeProvider orchestra_two "anthropic") "Which database?" no_options
                 (fun _ => [0; 1]%nat) = Rejected e.
Proof.
  assert (Hn : In "anthropic" (map fst (cfg_providers (config orchestra_two))))
    by (simpl; auto).
  destruct (proj1 (proj2 (proj2 (proj2 default_participants))) orchestra_two "anthropic" Hn)
    as (H1 & _ & H3).
  assert (Hq : query (removeProvider orchestra_two "anthropic") "Which database?"
                 (Some "anthropic") = Rejected (Error "Provider anthropic not found"))
    by exact (H3 ltac:(discriminate) "Which database?").
  split; [exact H1|]; split; [exact Hq|].
  apply (proj2 (proj2 (proj2 (proj2 default_participants))) _ _ _ _ "anthropic").
  - vm_compute; reflexivity.
  - vm_compute; reflexivity.
  - simpl; auto.
  - intros pr; exists (Error "Provider anthropic not found"); vm_compute; reflexivity.
Defined.

(** * Further properties of the registry, the queries, the debate and
      the consensus *)

(** ** [ProviderRegistry]: [set], [get], [delete] and [keys] *)

Lemma string_append_assoc : forall a b c : string,
  append (append a b) c = append a (append b c).
Proof.
  intros a b c; induction a as [|x a IH]; simpl; [reflexivity | rewrite IH; reflexivity].
Qed.

Lemma reg_get_set : forall reg n m p,
  reg_get (reg_set reg n p) m = if String.eqb n m then Some p else reg_get reg m.
Proof.
  intros reg n m p; induction reg as [|[k q] reg IH]; simpl; [reflexivity|].
  destruct (String.eqb k n) eqn:E1; simpl.
  - apply String.eqb_eq in E1; subst k; destruct (String.eqb n m); reflexivity.
  - rewrite IH; destruct (String.eqb k m) eqn:E2; [|reflexivity].
    apply String.eqb_eq in E2; subst k.
    destruct (String.eqb n m) eqn:E3; [|reflexivity].
    apply String.eqb_eq in E3; subst n; rewrite String.eqb_refl in E1; discriminate.
Qed.

Lemma reg_list_set : forall reg n p,
  reg_list (reg_set reg n p)
  = if mem n (reg_list reg) then reg_list reg else reg_list reg ++ [n].
Proof.
  intros reg n p; induction reg as [|[k q] reg IH]; [reflexivity|].
  cbn [reg_set reg_list map fst mem existsb] in *.
  destruct (String.eqb k n) eqn:E.
  - rewrite String.eqb_sym, E; reflexivity.
  - rewrite String.eqb_sym, E; simpl; unfold reg_list in IH; rewrite IH.
    unfold mem; destruct (existsb _ _); reflexivity.
Qed.

Lemma reg_get_delete : forall reg n m,
  reg_get (reg_delete reg n) m = if String.eqb n m then None else reg_get reg m.
Proof.
  intros reg n m; induction reg as [|[k q] reg IH]; simpl; [destruct (String.eqb n m); reflexivity|].
  destruct (String.eqb k n) eqn:E1; simpl.
  - apply String.eqb_eq in E1; subst k; rewrite IH.
    destruct (String.eqb n m); reflexivity.
  - rewrite IH; destruct (String.eqb k m) eqn:E2; [|reflexivity].
    apply String.eqb_eq in E2; subst k.
    destruct (String.eqb n m) eqn:E3; [|reflexivity].
    apply String.eqb_eq in E3; subst n; rewrite String.eqb_refl in E1; discriminate.
Qed.

Lemma reg_list_delete : forall reg n,
  reg_list (reg_delete reg n) = filter (fun k => negb (String.eqb k n)) (reg_list reg).
Proof.
  intros reg n; unfold reg_list, reg_delete.
  induction reg as [|[k q] reg IH]; simpl; [reflexivity|].
  destruct (String.eqb k n); simpl; rewrite IH; reflexivity.
Qed.

Lemma reg_delete_absent : forall reg n, ~ In n (reg_list reg) -> reg_delete reg n = reg.
Proof.
  intros reg n; induction reg as [|[k q] reg IH]; intros H; [reflexivity|].
  simpl in H; unfold reg_delete; simpl.
  destruct (String.eqb k n) eqn:E; [apply String.eqb_eq in E; tauto|].
  simpl; f_equal; apply IH; tauto.
Qed.

Lemma reg_delete_set : forall reg n p, reg_delete (reg_set reg n p) n = reg_delete reg n.
Proof.
  intros reg n p; induction reg as [|[k q] reg IH]; simpl.
  - unfold reg_delete; simpl; rewrite String.eqb_refl; reflexivity.
  - destruct (String.eqb k n) eqn:E; unfold reg_delete; simpl; rewrite E; simpl;
      [reflexivity|].
    f_equal; exact IH.
Qed.

Lemma reg_list_NoDup_set : forall reg n p,
  NoDup (reg_list reg) -> NoDup (reg_list (reg_set reg n p)).
Proof.
  intros reg n p H; rewrite reg_list_set.
  destruct (mem n (reg_list reg)) eqn:E; [exact H|].
  apply NoDup_snoc; [exact H | apply mem_false, E].
Qed.

Lemma reg_list_NoDup_delete : forall reg n,
  NoDup (reg_list reg) -> NoDup (reg_list (reg_delete reg n)).
Proof. intros reg n H; rewrite reg_list_delete; apply NoDup_filter, H. Qed.

(** The registry built by the constructor lists the configured names in
    [Map] order: first occurrence, no repetition. *)
Lemma reg_list_fold_register : forall l acc,
  reg_list (fold_left (fun reg nc => register reg (fst nc) (snd nc)) l acc)
  = fold_left (fun acc x => if mem x acc then acc else acc ++ [x]) (map fst l) (reg_list acc).
Proof.
  intros l; induction l as [|[n c] l IH]; intros acc; [reflexivity|].
  simpl; rewrite IH; unfold register; rewrite reg_list_set; reflexivity.
Qed.

Lemma mock_entries_set : forall reg n c,
  mock_entries reg -> mock_entries (register reg n c).
Proof.
  intros reg n c; unfold register, mock_entries.
  induction reg as [|[k q] reg IH]; intros H; simpl.
  - constructor; [exists c; reflexivity | constructor].
  - inversion H as [|? ? Hkq Hrest]; subst.
    destruct (String.eqb k n) eqn:E.
    + apply String.eqb_eq in E; subst k; constructor; [exists c; reflexivity | exact Hrest].
    + constructor; [exact Hkq | apply IH, Hrest].
Qed.

Lemma mock_entries_delete : forall reg n, mock_entries reg -> mock_entries (reg_delete reg n).
Proof.
  intros reg n H; unfold mock_entries, reg_delete in *.
  apply Forall_forall; intros kp Hkp; apply filter_In in Hkp.
  rewrite Forall_forall in H; apply H, Hkp.
Qed.

Lemma fold_register_inv : forall l acc,
  NoDup (reg_list acc) -> mock_entries acc ->
  NoDup (reg_list (fold_left (fun reg nc => register reg (fst nc) (snd nc)) l acc))
  /\ mock_entries (fold_left (fun reg nc => register reg (fst nc) (snd nc)) l acc).
Proof.
  intros l; induction l as [|[n c] l IH]; intros acc Hn Hm; [split; assumption|].
  simpl; apply IH; [apply reg_list_NoDup_set, Hn | apply mock_entries_set, Hm].
Qed.

(** The registry of an orchestra reached by construction and then any
    [addProvider]/[removeProvider] calls lists no name twice and holds
    only mock providers. *)
Lemma reachable_registry : forall cfg ops,
  NoDup (reg_list (registry (run_ops (newOrchestra cfg) ops)))
  /\ mock_entries (registry (run_ops (newOrchestra cfg) ops)).
Proof.
  intros cfg ops.
  assert (H0 := fold_register_inv (cfg_providers cfg) [] (NoDup_nil _) (Forall_nil _)).
  change (fold_left _ _ []) with (registry (newOrchestra cfg)) in H0.
  unfold run_ops; revert H0; generalize (newOrchestra cfg) as o.
  induction ops as [|op ops IH]; intros o Ho; [exact Ho|].
  simpl; apply IH; destruct Ho as [Hn Hm]; destruct op; simpl.
  - split; [apply reg_list_NoDup_set, Hn | apply mock_entries_set, Hm].
  - split; [apply reg_list_NoDup_delete, Hn | apply mock_entries_delete, Hm].
Qed.

Lemma mock_get : forall reg n,
  mock_entries reg -> In n (reg_list reg) ->
  exists c, reg_get reg n = Some (createProvider n c).
Proof.
  intros reg n; induction reg as [|[k q] reg IH]; intros Hm Hn; [destruct Hn|].
  inversion Hm as [|? ? [c Hc] Hrest]; subst; simpl in Hc, Hn |- *.
  destruct (String.eqb k n) eqn:E.
  - apply String.eqb_eq in E; subst k; exists c; rewrite Hc; reflexivity.
  - destruct Hn as [Hn|Hn]; [subst k; rewrite String.eqb_refl in E; discriminate|].
    apply IH; assumption.
Qed.

Lemma query_named : forall o prompt n p,
  n <> "" -> reg_get (registry o) n = Some p ->
  query o prompt (Some n)
  = bind (complete p prompt) (fun response =>
      Resolved {| oid := oid response; content := content response;
                  provider := n; cost := cost response |}).
Proof.
  intros o prompt n p Hn Hp; unfold query, or_str.
  destruct (String.eqb n "") eqn:E; [apply String.eqb_eq in E; contradiction|].
  rewrite Hp; reflexivity.
Qed.

(** X: [register(name, config)] followed by [get]: the name maps to the
    mock provider created for it (replacing any earlier provider of that
    name), and every other name keeps what it had. *)
Theorem register_then_get : forall reg n c m,
  reg_get (register reg n c) m
  = if String.eqb n m then Some (createProvider n c) else reg_get reg m.
Proof. intros reg n c m; unfold register; apply reg_get_set. Qed.

(** X: [register] and [list]: a new name is appended at the end of the
    listing; registering a name already present leaves the listing (and
    the name's position) unchanged. *)
Theorem register_then_list : forall reg n c,
  reg_list (register reg n c)
  = if mem n (reg_list reg) then reg_list reg else reg_list reg ++ [n].
Proof. intros reg n c; unfold register; apply reg_list_set. Qed.

(** X: [remove(name)]: afterwards [get(name)] is [undefined], every other
    name keeps its provider, the listing loses exactly that name, and
    removing a name that is not registered changes nothing. *)
Theorem remove_then_get_list : forall reg n,
  (forall m, reg_get (reg_delete reg n) m = if String.eqb n m then None else reg_get reg m)
  /\ reg_list (reg_delete reg n) = filter (fun k => negb (String.eqb k n)) (reg_list reg)
  /\ (~ In n (reg_list reg) -> reg_delete reg n = reg).
Proof.
  intros reg n; split; [intros m; apply reg_get_delete|].
  split; [apply reg_list_delete | apply reg_delete_absent].
Qed.

Lemma remove_then_get_list_witness :
  ~ In "google" (reg_list (registry orchestra_two))
  /\ reg_delete (registry orchestra_two) "google" = registry orchestra_two.
Proof.
  assert (H : ~ In "google" (reg_list (registry orchestra_two))).
  { vm_compute; intros [H|[H|[]]]; discriminate. }
  split; [exact H | exact (proj2 (proj2 (remove_then_get_list _ "google")) H)].
Defined.

(** X: [addProvider(name)] followed by [removeProvider(name)] leaves the
    orchestra as [removeProvider(name)] alone would: a provider that was
    registered under that name before is gone too. *)
Theorem add_then_remove : forall o n c,
  removeProvider (addProvider o n c) n = removeProvider o n.
Proof.
  intros o n c; unfold removeProvider, addProvider, register; simpl.
  rewrite reg_delete_set; reflexivity.
Qed.

(** X: once the constructor's [initialize()] has completed, the
    configured providers are registered in [Object.entries] order,
    keeping the first position of a name. *)
Theorem constructor_providers : forall cfg,
  getProviders (newOrchestra cfg) = set_of (map fst (cfg_providers cfg)).
Proof. intros cfg; unfold getProviders, newOrchestra, set_of; simpl; apply reg_list_fold_register. Qed.

(** X: whatever [addProvider]/[removeProvider] calls follow the
    construction, [getProviders()] never lists a name twice. *)
Theorem providers_NoDup : forall cfg ops,
  NoDup (getProviders (run_ops (newOrchestra cfg) ops)).
Proof. intros cfg ops; apply reachable_registry. Qed.

(** X: in an orchestra reached by construction and [addProvider]/
    [removeProvider] calls, querying any listed provider by a non-empty
    name resolves with that provider's simulated response, labelled with
    the name, costing [0.001]; the provider config plays no part. *)
Theorem query_listed_provider : forall cfg ops prompt n,
  In n (getProviders (run_ops (newOrchestra cfg) ops)) -> n <> "" ->
  query (run_ops (newOrchestra cfg) ops) prompt (Some n)
  = Resolved {| oid := 0;
                content := "Response from " +++ n +++ ": This is a simulated response to "
                             +++ dquote +++ prompt +++ dquote;
                provider := n;
                cost := Some (1 # 1000) |}.
Proof.
  intros cfg ops prompt n Hin Hn.
  destruct (mock_get _ n (proj2 (reachable_registry cfg ops)) Hin) as [c Hc].
  rewrite (query_named _ prompt n _ Hn Hc); reflexivity.
Qed.

Lemma query_listed_provider_witness :
  query orchestra_two "Which database?" (Some "anthropic")
  = Resolved {| oid := 0;
                content := "Response from " +++ "anthropic" +++
                           ": This is a simulated response to "
                           +++ dquote +++ "Which database?" +++ dquote;
                provider := "anthropic";
                cost := Some (1 # 1000) |}.
Proof.
  exact (query_listed_provider cfg_two [] "Which database?" "anthropic"
           ltac:(simpl; auto) ltac:(discriminate)).
Defined.

(** X: after [addProvider(name, config)] with a non-empty name, a query
    naming that provider resolves with the mock response for that name,
    whatever the orchestra held under that name before. *)
Theorem add_then_query : forall o n c prompt,
  n <> "" ->
  query (addProvider o n c) prompt (Some n)
  = Resolved {| oid := 0;
                content := "Response from " +++ n +++ ": This is a simulated response to "
                             +++ dquote +++ prompt +++ dquote;
                provider := n;
                cost := Some (1 # 1000) |}.
Proof.
  intros o n c prompt Hn.
  assert (Hg : reg_get (registry (addProvider o n c)) n = Some (createProvider n c))
    by (simpl; unfold register; rewrite reg_get_set, String.eqb_refl; reflexivity).
  rewrite (query_named _ prompt n _ Hn Hg); reflexivity.
Qed.

Lemma add_then_query_witness :
  query (addProvider (mkOrchestra cfg_two reg_fail) "google" cfg_key) "Which database?"
    (Some "google")
  = Resolved {| oid := 0;
                content := "Response from " +++ "google" +++
                           ": This is a simulated response to "
                           +++ dquote +++ "Which database?" +++ dquote;
                provider := "google";
                cost := Some (1 # 1000) |}.
Proof. exact (add_then_query _ "google" cfg_key "Which database?" ltac:(discriminate)). Defined.

(** ** Agreement of a debate round *)

Lemma jaccard_code_bounds : forall A B, 0 <= jaccard_code A B /\ jaccard_code A B <= 1.
Proof.
  intros A B; unfold jaccard_code.
  destruct (Nat.ltb 0 (length (set_union_js A B))).
  - split; [apply ratio_nonneg|]; apply ratio_le_1.
    apply NoDup_incl_length; [apply set_of_NoDup|].
    intros x Hx; apply set_union_js_In; apply set_intersection_js_In in Hx; tauto.
  - split; unfold Qle; simpl; lia.
Qed.

Lemma token_set_spec_nonempty : forall s, token_set_spec s <> [].
Proof.
  intros s; destruct (tokens s) as [|x xs] eqn:E; [exfalso; exact (tokens_nonempty s E)|].
  assert (Hx : In x (token_set_spec s)) by (apply tokens_spec_In; rewrite E; left; reflexivity).
  destruct (token_set_spec s); [destruct Hx | discriminate].
Qed.

Lemma jaccard_tokens_bounds : forall a b,
  0 <= jaccard_spec (token_set_spec a) (token_set_spec b)
  /\ jaccard_spec (token_set_spec a) (token_set_spec b) <= 1.
Proof.
  intros a b.
  rewrite <- (jaccard_code_spec (token_set_spec a) (token_set_spec b));
    [apply jaccard_code_bounds | apply NoDup_nodup | apply NoDup_nodup | tauto | tauto].
Qed.

Lemma jaccard_tokens_same : forall a, jaccard_spec (token_set_spec a) (token_set_spec a) == 1.
Proof.
  intros a.
  rewrite <- (jaccard_code_spec (token_set_spec a) (token_set_spec a));
    [apply jaccard_code_same; [apply token_set_spec_nonempty | tauto]
    | apply NoDup_nodup | apply NoDup_nodup | tauto | tauto].
Qed.

Lemma inject_Z_succ : forall k : nat,
  inject_Z (Z.of_nat (S k)) == inject_Z (Z.of_nat k) + 1.
Proof. intros k; rewrite Nat2Z.inj_succ, <- Z.add_1_r, inject_Z_plus; reflexivity. Qed.

Lemma sumQ_bounds : forall l,
  (forall x, In x l -> 0 <= x /\ x <= 1) ->
  0 <= sumQ l /\ sumQ l <= inject_Z (Z.of_nat (length l)).
Proof.
  intros l; induction l as [|x l IH]; intros H.
  - split; unfold Qle; simpl; lia.
  - change (sumQ (x :: l)) with (x + sumQ l); cbn [length].
    destruct (H x (or_introl eq_refl)) as [H0 H1].
    destruct IH as [I0 I1]; [intros y Hy; apply H; right; exact Hy|].
    rewrite inject_Z_succ; split.
    + rewrite <- (Qplus_0_l 0); apply Qplus_le_compat; assumption.
    + rewrite Qplus_comm; apply Qplus_le_compat; assumption.
Qed.

Lemma sumQ_ones : forall l,
  (forall x, In x l -> x == 1) -> sumQ l == inject_Z (Z.of_nat (length l)).
Proof.
  intros l; induction l as [|x l IH]; intros H; [reflexivity|].
  change (sumQ (x :: l)) with (x + sumQ l); cbn [length].
  rewrite inject_Z_succ, (H x (or_introl eq_refl)), IH by (intros y Hy; apply H; right; exact Hy).
  apply Qplus_comm.
Qed.

Lemma pairs_spec_length : forall n, (2 * length (pairs_spec n) = n * (n - 1))%nat.
Proof.
  intros n; pose proof (pairs_count n n (le_n n)) as H.
  rewrite <- pairs_spec_flat_map in H.
  destruct n as [|n]; [simpl in *; lia|].
  replace (S n - 1)%nat with n by lia; nia.
Qed.

Lemma pairs_denominator : forall n, (2 <= n)%nat ->
  inject_Z (Z.of_nat n) * inject_Z (Z.of_nat (n - 1)) / 2
    == inject_Z (Z.of_nat (length (pairs_spec n)))
  /\ 0 < inject_Z (Z.of_nat (length (pairs_spec n))).
Proof.
  intros n Hn; pose proof (pairs_spec_length n) as H.
  split.
  - assert (Hq : inject_Z (Z.of_nat (2 * length (pairs_spec n)))
                 == inject_Z (Z.of_nat (n * (n - 1)))) by (rewrite H; reflexivity).
    rewrite !Nat2Z.inj_mul, !inject_Z_mult in Hq.
    rewrite <- Hq; simpl (Z.of_nat 2); field.
  - assert (0 < length (pairs_spec n))%nat by nia.
    unfold Qlt; simpl; lia.
Qed.

Lemma pairs_spec_range : forall n p, In p (pairs_spec n) -> (fst p < n /\ snd p < n)%nat.
Proof.
  intros n [i j] Hp; unfold pairs_spec in Hp; apply filter_In in Hp.
  destruct Hp as [Hp _]; apply in_prod_iff in Hp; destruct Hp as [Hi Hj].
  apply in_seq in Hi, Hj; simpl; lia.
Qed.

(** The agreement of a list of responses lies in [[0, 1]]. *)
Lemma calculateAgreement_bounds : forall rs,
  0 <= calculateAgreement rs /\ calculateAgreement rs <= 1.
Proof.
  intros rs; rewrite (calculateAgreement_spec rs); unfold avgPairwiseJaccard.
  rewrite length_map; set (n := length rs).
  destruct (Nat.leb n 1) eqn:Hn; [split; unfold Qle; simpl; lia|].
  apply Nat.leb_gt in Hn.
  destruct (pairs_denominator n ltac:(lia)) as [Hd Hpos].
  rewrite Hd.
  set (S := sumQ _).
  assert (HS : 0 <= S /\ S <= inject_Z (Z.of_nat (length (pairs_spec n)))).
  { unfold S; rewrite <- (length_map (fun p => jaccard_spec (token_set_spec (nth (fst p) (map content rs) ""))
                                                 (token_set_spec (nth (snd p) (map content rs) "")))).
    apply sumQ_bounds; intros x Hx; apply in_map_iff in Hx.
    destruct Hx as (p & <- & _); apply jaccard_tokens_bounds. }
  destruct HS as [H0 H1]; split.
  - apply Qle_shift_div_l; [exact Hpos|]; rewrite Qmult_0_l; exact H0.
  - apply Qle_shift_div_r; [exact Hpos|]; rewrite Qmult_1_l; exact H1.
Qed.

(** Responses that all carry the same content agree fully. *)
Lemma calculateAgreement_same_content : forall rs c,
  (forall r, In r rs -> content r = c) -> calculateAgreement rs == 1.
Proof.
  intros rs c Hc; rewrite (calculateAgreement_spec rs); unfold avgPairwiseJaccard.
  rewrite length_map; set (n := length rs).
  destruct (Nat.leb n 1) eqn:Hn; [reflexivity|].
  apply Nat.leb_gt in Hn.
  destruct (pairs_denominator n ltac:(lia)) as [Hd Hpos].
  rewrite Hd.
  assert (Hnth : forall i, (i < n)%nat -> nth i (map content rs) "" = c).
  { intros i Hi.
    assert (Hin : In (nth i (map content rs) "") (map content rs))
      by (apply nth_In; rewrite length_map; exact Hi).
    apply in_map_iff in Hin; destruct Hin as (r & Hr & Hin); rewrite <- Hr; apply Hc, Hin. }
  rewrite sumQ_ones, length_map.
  - unfold Qdiv; apply Qmult_inv_r; intros H; rewrite H in Hpos.
    exact (Qlt_irrefl 0 Hpos).
  - intros x Hx; apply in_map_iff in Hx; destruct Hx as (p & <- & Hp).
    destruct (pairs_spec_range n p Hp) as [Hi Hj].
    rewrite (Hnth _ Hi), (Hnth _ Hj); apply jaccard_tokens_same.
Qed.

(** X: the agreement of a debate round always lies between 0 and 1. *)
Theorem agreement_in_unit_interval : forall rs,
  0 <= calculateAgreement rs /\ calculateAgreement rs <= 1.
Proof. exact calculateAgreement_bounds. Qed.

(** X: when every response of a round has the same content, the round's
    agreement is 1 (the content's token set is never empty: [''] splits
    to one empty token). *)
Theorem agreement_identical_contents : forall rs c,
  (forall r, In r rs -> content r = c) -> calculateAgreement rs == 1.
Proof. exact calculateAgreement_same_content. Qed.

Lemma agreement_identical_contents_witness :
  calculateAgreement [resp_empty1; resp_empty2] == 1.
Proof.
  apply (agreement_identical_contents [resp_empty1; resp_empty2] "").
  intros r [<-|[<-|[]]]; reflexivity.
Defined.

(** ** Edge cases of [debate] *)

(** X: a negative threshold or round budget (a [0] is replaced by the
    default) stops the loop before its first round, and the debate
    rejects with the [TypeError] of [synthesizeDecision] reading
    [rounds[-1].arguments]. *)
Theorem debate_nonpositive_bounds : forall o prompt options order,
  resolveThreshold o options <= 0 \/ resolveMaxRounds o options <= 0 ->
  debate o prompt options order
  = Rejected (TypeError "Cannot read properties of undefined (reading 'arguments')").
Proof.
  intros o prompt options order H; unfold debate; cbv zeta.
  set (t := resolveThreshold o options) in *; set (m := resolveMaxRounds o options) in *.
  assert (Hc : qlt 0 t && qlt (inject_Z (Z.of_nat 0)) m = false).
  { destruct H as [H|H]; apply andb_false_intro1 + apply andb_false_intro2;
      unfold qlt; apply negb_false_iff, Qle_bool_iff; exact H. }
  destruct (Z.to_nat (Qceiling m)) as [|f]; cbn [debate_loop];
    [|rewrite Hc]; reflexivity.
Qed.

Lemma debate_nonpositive_bounds_witness :
  debate orchestra_two "Which database?" (mkDebateOptions None None (Some (-1 # 1)))
    (fun _ => [0; 1]%nat)
  = Rejected (TypeError "Cannot read properties of undefined (reading 'arguments')").
Proof.
  apply debate_nonpositive_bounds; left; apply Qle_bool_iff; vm_compute; reflexivity.
Defined.

(** A threshold above 1 is never reached: a resolved debate ran exactly
    [ceil(maxRounds)] rounds. *)
Lemma debate_full_budget : forall o prompt options order res,
  1 < resolveThreshold o options ->
  debate o prompt options order = Resolved res ->
  Z.of_nat (length (rounds res)) = Qceiling (resolveMaxRounds o options).
Proof.
  intros o prompt options order res Ht H.
  destruct (debate_resolved o prompt options order res H)
    as (Htr & _ & _ & r & b & rest & Hlast & _ & _).
  set (t := resolveThreshold o options) in *; set (m := resolveMaxRounds o options) in *.
  assert (Hne : rounds res <> []) by (intros E; rewrite E in Hlast; discriminate).
  assert (Hfin : agreement res <= 1).
  { destruct (trace_last t m _ _ _ _ Htr) as [[E _]|(r' & Hl & ->)]; [contradiction|].
    pose proof (trace_agreements t m _ _ _ _ Htr) as HF; rewrite Forall_forall in HF.
    rewrite (HF r' (last_opt_In _ _ _ Hl)); apply calculateAgreement_bounds. }
  pose proof (trace_exit t m _ _ _ _ Htr) as Hexit.
  pose proof (trace_budget t m _ _ _ _ Htr Hne) as Hbud.
  assert (Hml : m <= inject_Z (Z.of_nat (length (rounds res)))).
  { apply Qnot_lt_le; intros Hlt; apply Hexit; split; [|exact Hlt].
    apply Qle_lt_trans with 1; assumption. }
  apply Qceiling_resp_le in Hml; rewrite Qceiling_Z in Hml.
  apply qlt_ceiling in Hbud.
  destruct (rounds res) as [|x xs]; [contradiction|].
  simpl length in *; lia.
Qed.

Lemma query_labels : forall o prompt p r,
  p <> "" -> query o prompt (Some p) = Resolved r -> provider r = p.
Proof.
  intros o prompt p r Hp H; unfold query, or_str in H.
  destruct (String.eqb p "") eqn:E; [apply String.eqb_eq in E; contradiction|].
  destruct (reg_get (registry o) p); [|discriminate].
  destruct (complete i prompt); cbn [bind] in H; [|discriminate].
  injection H as <-; reflexivity.
Qed.

Lemma fan_out_labels : forall o prompt ps ord responses,
  ~ In "" ps ->
  promise_all ord (map (fun p => query o prompt (Some p)) ps) = Resolved responses ->
  map provider responses = ps.
Proof.
  intros o prompt ps ord responses Hps H; apply promise_all_resolved in H.
  revert responses H; induction ps as [|p ps IH]; intros [|r rs] H; simpl in H;
    try discriminate; [reflexivity|].
  injection H as Hr Hrs; simpl.
  rewrite (query_labels o prompt p r); [|intros E; apply Hps; left; auto | exact Hr].
  f_equal; apply IH; [intros Hin; apply Hps; right; exact Hin | exact Hrs].
Qed.

Lemma debate_loop_labels : forall o ps t m order fuel prompt rs agr rnd rs' fin,
  ~ In "" ps ->
  debate_loop o ps t m order fuel prompt rs agr rnd = Resolved (rs', fin) ->
  forall r, In r rs' -> In r rs \/ map provider (arguments r) = ps.
Proof.
  intros o ps t m order fuel; induction fuel as [|fuel IH];
    intros prompt rs agr rnd rs' fin Hps H; cbn [debate_loop] in H.
  - injection H as <- <-; auto.
  - destruct (qlt agr t && qlt (inject_Z (Z.of_nat rnd)) m);
      [|injection H as <- <-; auto].
    destruct (promise_all (order (S rnd)) (map (fun p => query o prompt (Some p)) ps))
      as [responses|e] eqn:P; cbn [bind] in H; [|discriminate].
    pose proof (fan_out_labels o prompt ps _ responses Hps P) as Hl.
    set (x := mkRound (S rnd) responses (calculateAgreement responses)) in H.
    assert (Hstep : forall p', debate_loop o ps t m order fuel p' (rs ++ [x])
                       (calculateAgreement responses) (S rnd) = Resolved (rs', fin) ->
                    forall r, In r rs' -> In r rs \/ map provider (arguments r) = ps).
    { intros p' Hp' r Hr; destruct (IH _ _ _ _ _ _ Hps Hp' r Hr) as [Hr'|Hr'];
        [|right; exact Hr'].
      apply in_app_iff in Hr'; destruct Hr' as [Hr'|[<-|[]]]; [left; exact Hr'|].
      right; exact Hl. }
    destruct (qlt (calculateAgreement responses) t
              && qlt (inject_Z (Z.of_nat (S rnd))) m).
    + destruct (buildDebatePrompt prompt (rs ++ [x])) as [p'|e]; cbn [bind] in H;
        [exact (Hstep p' H) | discriminate].
    + exact (Hstep prompt H).
Qed.

(** X: a threshold above 1 can never be met, since a round's agreement is
    at most 1: every resolved debate then runs its whole budget,
    [ceil(maxRounds)] rounds. *)
Theorem debate_threshold_above_one : forall o prompt options order res,
  1 < resolveThreshold o options ->
  debate o prompt options order = Resolved res ->
  Z.of_nat (length (rounds res)) = Qceiling (resolveMaxRounds o options).
Proof. exact debate_full_budget. Qed.

Lemma debate_threshold_above_one_witness :
  Z.of_nat (length (rounds
    (match debate orchestra_two "Which database?"
             (mkDebateOptions None (Some (5 # 2)) (Some (2 # 1))) (fun _ => [0; 1]%nat) with
     | Resolved r => r | Rejected _ => debate_two_result end)))
  = Qceiling (5 # 2).
Proof.
  apply (debate_threshold_above_one orchestra_two "Which database?"
           (mkDebateOptions None (Some (5 # 2)) (Some (2 # 1))) (fun _ => [0; 1]%nat)).
  - apply qlt_iff; vm_compute; reflexivity.
  - vm_compute; reflexivity.
Defined.

(** X: every round of a resolved debate holds one response per
    participant, in participant order and labelled with the participant's
    name (the query overwrites [provider]), whatever order the queries
    settled in; a participant named [''] is excluded, as its query falls
    back to the default provider's name. *)
Theorem debate_round_labels : forall o prompt options order res,
  ~ In "" (resolveParticipants o options) ->
  debate o prompt options order = Resolved res ->
  forall r, In r (rounds res) -> map provider (arguments r) = participants res.
Proof.
  intros o prompt options order res Hps H.
  assert (Hp : participants res = resolveParticipants o options)
    by apply (debate_resolved o prompt options order res H).
  unfold debate in H; cbv zeta in H.
  match type of H with
  | bind (debate_loop ?o ?ps ?t ?m ?ord ?f ?p ?rs ?a ?r) _ = _ =>
      destruct (debate_loop o ps t m ord f p rs a r) as [[rs' agr]|e] eqn:E;
      cbn [bind] in H; [|discriminate]
  end.
  destruct (synthesizeDecision rs') as [d|e]; cbn [bind] in H; [|discriminate].
  injection H as <-; cbn [rounds participants] in *.
  intros r Hr; destruct (debate_loop_labels _ _ _ _ _ _ _ _ _ _ _ _ Hps E r Hr) as [[]|Hl].
  exact Hl.
Qed.

Lemma debate_round_labels_witness :
  Forall (fun r => map provider (arguments r) = participants debate_two_result)
    (rounds debate_two_result).
Proof.
  apply Forall_forall.
  apply (debate_round_labels orchestra_two "Which database?" no_options (fun _ => [0; 1]%nat)).
  - simpl; intros [H|[H|[]]]; discriminate.
  - vm_compute; reflexivity.
Defined.

(** ** The [reasoning] text of a consensus *)

Lemma string_append_nil_r : forall s : string, append s "" = s.
Proof. intros s; induction s as [|c s IH]; simpl; [reflexivity | rewrite IH; reflexivity]. Qed.

Lemma Math_round_full : forall n, n <> 0%nat -> Math_round (ratio n n * inject_Z 100) = 100%Z.
Proof.
  intros n Hn; unfold Math_round; rewrite (ratio_diag n Hn); reflexivity.
Qed.

(** The reasoning of a consensus states [Math.round(agreement * 100)] and
    the number of dissenting responses. *)
Lemma consensus_reasoning_spec : forall rs core,
  calculateConsensus rs = Resolved core ->
  consensus_reasoning rs = Resolved
    (append (Z_toString (Math_round (core_agreement core * inject_Z 100)))
       (append "% of models agreed on this response."
          (match core_dissenting core with
           | None => ""
           | Some d => append " " (append (Z_toString (Z.of_nat (length d)))
                                     " model(s) provided alternative perspectives.")
           end)))
  /\ (core_dissenting core = None ->
      consensus_reasoning rs = Resolved "100% of models agreed on this response.").
Proof.
  intros rs core H.
  assert (Hrs : rs <> []) by (intros ->; discriminate).
  destruct (calculateConsensus_spec rs Hrs)
    as (k & gi & res & Hk & Hlg & _ & _ & Hc & Hagr & _ & _ & Hdis).
  rewrite H in Hc; injection Hc as <-.
  set (maj := pick rs gi) in *.
  set (d := filter (fun r => negb (includes maj r)) rs) in *.
  assert (Hlen : (length maj + length d)%nat = length rs).
  { rewrite <- length_app; apply Permutation_length.
    apply (dissent_partition rs gi (nth_error_In _ _ Hk)). }
  assert (Hn : length rs <> 0%nat) by (destruct rs; [contradiction | discriminate]).
  assert (Hreason : consensus_reasoning rs = Resolved (generateReasoning maj d))
    by (unfold consensus_reasoning; rewrite Hlg; reflexivity).
  unfold generateReasoning in Hreason; rewrite Hlen in Hreason.
  replace (Nat.eqb (length rs) 0) with false in Hreason
    by (symmetry; apply Nat.eqb_neq, Hn).
  rewrite Hagr, Hdis, Hreason.
  destruct d as [|x xs] eqn:Ed; cbn [length Nat.ltb Nat.leb].
  - split; [rewrite string_append_nil_r; reflexivity|].
    intros _; simpl in Hlen; rewrite Nat.add_0_r in Hlen.
    rewrite <- Hlen, (Math_round_full (length maj)) by (rewrite Hlen; exact Hn).
    reflexivity.
  - split; [rewrite string_append_assoc; reflexivity | discriminate].
Qed.

(** ** Orchestras holding only mock providers *)

Lemma mock_provider_call : forall reg prompt n,
  mock_entries reg -> In n (reg_list reg) ->
  provider_call reg prompt n
  = Resolved {| oid := 0;
                content := "Response from " +++ n +++ ": This is a simulated response to "
                             +++ dquote +++ prompt +++ dquote;
                provider := n;
                cost := Some (1 # 1000) |}.
Proof.
  intros reg prompt n Hm Hn; destruct (mock_get reg n Hm Hn) as [c Hc].
  unfold provider_call; rewrite Hc; reflexivity.
Qed.



(** With only mock providers registered, and at least one of them, a
    default consensus resolves whatever order the calls settle in. *)
Lemma mock_consensus_resolves : forall cfg ops prompt order,
  getProviders (run_ops (newOrchestra cfg) ops) <> [] ->
  exists res,
    consensus (run_ops (newOrchestra cfg) ops) prompt default_consensus order = Resolved res
    /\ providers res = getProviders (run_ops (newOrchestra cfg) ops)
    /\ meta_rounds res = 1%nat.
Proof.
  intros cfg ops prompt order Hne.
  set (o := run_ops (newOrchestra cfg) ops) in *.
  destruct (reachable_registry cfg ops) as [_ Hm]; fold o in Hm.
  set (mk := fun n => {| oid := 0;
                         content := "Response from " +++ n +++
                                    ": This is a simulated response to "
                                    +++ dquote +++ prompt +++ dquote;
                         provider := n;
                         cost := Some (1 # 1000) |}).
  assert (Hg : getResponses (registry o) prompt (getProviders o) order
               = Resolved (map mk (getProviders o))).
  { unfold getResponses.
    rewrite (map_ext_in (provider_call (registry o) prompt) (fun n => Resolved (mk n)))
      by (intros n Hn; apply mock_provider_call; assumption).
    rewrite <- (map_map mk Resolved); apply promise_all_map_resolved. }
  assert (Hrs : map mk (getProviders o) <> [])
    by (destruct (getProviders o); [contradiction | discriminate]).
  destruct (calculateConsensus_spec _ Hrs) as (_ & _ & core & _ & _ & _ & _ & Hc & _).
  unfold consensus, buildConsensus; cbv zeta.
  change (resolveProviders (registry o) default_consensus) with (getProviders o).
  destruct (getProviders o) as [|n0 ns] eqn:Ep; [contradiction|].
  rewrite Hg; cbn [bind]; rewrite Hc; cbn [bind].
  eexists; split; [reflexivity|]; split; reflexivity.
Qed.

Lemma obj_put_fresh : forall obj k v, ~ In k (map fst obj) -> obj_put obj k v = obj ++ [(k, v)].
Proof.
  intros obj k v; induction obj as [|[k' w] obj IH]; intros H; [reflexivity|].
  simpl in H |- *; destruct (String.eqb k' k) eqn:E.
  - apply String.eqb_eq in E; subst k'; exfalso; apply H; left; reflexivity.
  - rewrite IH by tauto; reflexivity.
Qed.

Lemma fold_health_fresh : forall (f : string -> bool) l acc,
  NoDup l -> (forall n, In n l -> ~ In n (map fst acc)) -> (forall n, In n l -> f n = true) ->
  fold_left (fun h k => obj_set h k (f k)) l acc
  = acc ++ map (fun n => (n, true)) (filter (fun n => negb (String.eqb n "__proto__")) l).
Proof.
  intros f l; induction l as [|k l IH]; intros acc Hnd Hfresh Hf; simpl.
  - rewrite app_nil_r; reflexivity.
  - inversion Hnd as [|? ? Hk Hl]; subst.
    rewrite (Hf k (or_introl eq_refl)); unfold obj_set at 2.
    destruct (String.eqb k "__proto__"); simpl.
    + apply IH; [exact Hl | intros n Hn; apply Hfresh; right; exact Hn
                | intros n Hn; apply Hf; right; exact Hn].
    + rewrite obj_put_fresh by (apply Hfresh; left; reflexivity).
      rewrite IH, <- app_assoc; [reflexivity | exact Hl | | intros n Hn; apply Hf; right; exact Hn].
      intros n Hn; rewrite map_app, in_app_iff; intros [Hin|[Hin|[]]];
        [exact (Hfresh n (or_intror Hn) Hin) | simpl in Hin; subst n; contradiction].
Qed.

(** X: the [reasoning] of a consensus reports [Math.round(agreement *
    100)] percent and, when some responses dissent, their number; with no
    dissent it reads "100% of models agreed on this response." *)
Theorem reasoning_reports_agreement : forall rs core,
  calculateConsensus rs = Resolved core ->
  consensus_reasoning rs = Resolved
    (append (Z_toString (Math_round (core_agreement core * inject_Z 100)))
       (append "% of models agreed on this response."
          (match core_dissenting core with
           | None => ""
           | Some d => append " " (append (Z_toString (Z.of_nat (length d)))
                                     " model(s) provided alternative perspectives.")
           end)))
  /\ (core_dissenting core = None ->
      consensus_reasoning rs = Resolved "100% of models agreed on this response.").
Proof. exact consensus_reasoning_spec. Qed.

Lemma reasoning_reports_agreement_witness :
  consensus_reasoning [resp_pg1; resp_pg2; resp_mongo]
  = Resolved "67% of models agreed on this response. 1 model(s) provided alternative perspectives."
  /\ consensus_reasoning [resp_pg1; resp_pg_caps]
     = Resolved "100% of models agreed on this response.".
Proof.
  split.
  - rewrite (proj1 (reasoning_reports_agreement [resp_pg1; resp_pg2; resp_mongo]
             (match calculateConsensus [resp_pg1; resp_pg2; resp_mongo] with
              | Resolved c => c | Rejected _ => mkCore "" 0 0 None end)
             ltac:(vm_compute; reflexivity))).
    vm_compute; reflexivity.
  - exact (proj2 (reasoning_reports_agreement [resp_pg1; resp_pg_caps]
             (match calculateConsensus [resp_pg1; resp_pg_caps] with
              | Resolved c => c | Rejected _ => mkCore "" 0 0 (Some []) end)
             ltac:(vm_compute; reflexivity)) ltac:(vm_compute; reflexivity)).
Defined.

(** X: on an orchestra built by the constructor, once its [initialize()]
    has completed, and then [addProvider]/[removeProvider] calls (so
    holding only mock providers), a default
    consensus with at least one registered provider never rejects,
    whatever order the calls settle in: it reports the registered names
    and one round. *)
Theorem mock_consensus : forall cfg ops prompt order,
  getProviders (run_ops (newOrchestra cfg) ops) <> [] ->
  exists res,
    consensus (run_ops (newOrchestra cfg) ops) prompt default_consensus order = Resolved res
    /\ providers res = getProviders (run_ops (newOrchestra cfg) ops)
    /\ meta_rounds res = 1%nat.
Proof. exact mock_consensus_resolves. Qed.

Lemma mock_consensus_witness :
  exists res,
    consensus (run_ops (newOrchestra cfg_two) [OpAdd "google" cfg_key]) "Which database?"
      default_consensus [2; 0; 1]%nat = Resolved res
    /\ providers res = ["openai"; "anthropic"; "google"]
    /\ meta_rounds res = 1%nat.
Proof.
  destruct (mock_consensus cfg_two [OpAdd "google" cfg_key] "Which database?"
              [2; 0; 1]%nat ltac:(discriminate)) as (res & H1 & H2 & H3).
  exists res; split; [exact H1|]; split; [exact H2 | exact H3].
Defined.

Lemma healthCheck_mock_list : forall cfg ops,
  healthCheck (run_ops (newOrchestra cfg) ops)
  = map (fun n => (n, true))
      (filter (fun n => negb (String.eqb n "__proto__"))
         (getProviders (run_ops (newOrchestra cfg) ops))).
Proof.
  intros cfg ops; destruct (reachable_registry cfg ops) as [Hnd Hm].
  unfold healthCheck, getProviders.
  apply (fold_health_fresh (fun name => probe_result (reg_get (registry (run_ops (newOrchestra cfg) ops)) name))
           _ []); [exact Hnd | intros n _ [] |].
  intros n Hn; destruct (mock_get _ n Hm Hn) as [c Hc]; rewrite Hc; reflexivity.
Qed.

Lemma obj_get_all_true : forall l n,
  obj_get (map (fun k => (k, true)) l) n = if in_dec string_dec n l then Some true else None.
Proof.
  intros l n; induction l as [|k l IH]; [reflexivity|]; simpl.
  destruct (String.eqb k n) eqn:E.
  - apply String.eqb_eq in E; subst k; destruct (string_dec n n); [reflexivity | contradiction].
  - apply String.eqb_neq in E; rewrite IH.
    destruct (string_dec k n) as [Heq|Hne]; [contradiction|].
    destruct (in_dec string_dec n l); reflexivity.
Qed.

(** X: on an orchestra built by the constructor, once its [initialize()]
    has completed, and then [addProvider]/[removeProvider] calls,
    [healthCheck()] has an own entry [true] for every registered provider
    other than ['__proto__'] and no own entry for any other name; its keys
    are these names, each once. *)
Theorem mock_healthCheck : forall cfg ops,
  (forall n, obj_get (healthCheck (run_ops (newOrchestra cfg) ops)) n
             = if in_dec string_dec n (getProviders (run_ops (newOrchestra cfg) ops))
               then if String.eqb n "__proto__" then None else Some true
               else None)
  /\ Permutation (map fst (healthCheck (run_ops (newOrchestra cfg) ops)))
       (filter (fun n => negb (String.eqb n "__proto__"))
          (getProviders (run_ops (newOrchestra cfg) ops)))
  /\ NoDup (map fst (healthCheck (run_ops (newOrchestra cfg) ops))).
Proof.
  intros cfg ops; rewrite healthCheck_mock_list.
  set (l := getProviders (run_ops (newOrchestra cfg) ops)).
  assert (Hnd : NoDup l) by apply reachable_registry.
  rewrite map_map; cbn [fst]; rewrite map_id.
  split; [|split; [apply Permutation_refl | apply NoDup_filter; exact Hnd]].
  intros n; rewrite obj_get_all_true.
  destruct (in_dec string_dec n l) as [Hl|Hl]; destruct (String.eqb n "__proto__") eqn:E;
    destruct (in_dec string_dec n (filter _ l)) as [Hf|Hf]; try reflexivity; exfalso;
    rewrite filter_In in Hf; cbn beta in Hf; rewrite E in Hf; simpl in Hf; intuition congruence.
Qed.
